(** * crown-bot: event bus, System base class and command dispatcher

    A shallow embedding of
    - [src/lib/events/events.ts]     (classes [Event], [Events]),
    - [lib/systems/systems.ts]       (class [System]),
    - [src/lib/commands/command.ts]  (classes [Command], [CommandManager]),
    - [permissions.ts], [plugin.ts]  (classes [Permissions], [Plugins]),
    - [src/youtube.ts]               (class [Youtube]),
    followed by the properties of these classes that the specification
    states, and by further properties that the code shows.

    Conventions of the embedding.
    - A JavaScript string is its sequence of UTF-16 code units.
    - [Hashtable<T>] (an object literal used as a dictionary) is a finite
      map over its own properties, read through its prototype: a name the
      table does not hold may still be found in [Object.prototype], see
      [Slot], and the table of commands can receive another prototype by
      an assignment to [__proto__], see [commands_proto].
    - Function objects are identified by a reference ([Callable]); running
      one is the business of the host, see the class [Engine].  A call
      returns a value or raises; what is raised is an [Error] object, a
      string, [null] or [undefined].  The [TypeError]s of the language
      itself are told apart by the operation that failed, see [Fault];
      their text is the engine's, see the class [Wording].
    - The modules are run in strict mode, as modules of ECMAScript are.
    - A System object has the prototype of its class, and the classes
      derived from [System] define no getter and no setter: an assignment
      [this[k] = v] defines or overwrites the own property [k], unless
      [k] is [__proto__], see [assign].  A method is the one of the class
      of the object it is called on.
    - Everything a callback can reach (the registry of events, the command
      table, System objects, the console, the chat) lives in one [World],
      which is threaded through every method. *)

From stdpp Require Import gmap strings list fin_maps.
From Stdlib Require Import NArith ZArith Ascii String.

Set Default Proof Using "Type".

(* ===================================================================== *)
(** ** Strings *)
(* ===================================================================== *)

Abbreviation jsstring := (list N).

(** A literal: every character of an ASCII literal is one code unit. *)
Definition js (s : string) : jsstring := N_of_ascii <$> list_ascii_of_string s.

Module JsString.

(** [String.prototype.startsWith(p)]. *)
Fixpoint startsWith (s p : jsstring) {struct p} : bool :=
  match p with
  | [] => true
  | a :: p' =>
      match s with
      | [] => false
      | b :: s' => if decide (a = b) then startsWith s' p' else false
      end
  end.

(** [String.prototype.slice(n)] for [0 <= n]. *)
Definition slice (n : nat) (s : jsstring) : jsstring := drop n s.

(** WhiteSpace and LineTerminator code points of ECMAScript, the ones
    [trim] strips. *)
Definition is_whitespace (c : N) : bool :=
  ((9 <=? c) && (c <=? 13) || (c =? 32) || (c =? 160) || (c =? 5760)
   || (8192 <=? c) && (c <=? 8202) || (c =? 8232) || (c =? 8233)
   || (c =? 8239) || (c =? 8287) || (c =? 12288) || (c =? 65279))%N.

Fixpoint trimStart (s : jsstring) : jsstring :=
  match s with
  | c :: s' => if is_whitespace c then trimStart s' else s
  | [] => []
  end.

Definition trimEnd (s : jsstring) : jsstring := rev (trimStart (rev s)).

(** [String.prototype.trim()]. *)
Definition trim (s : jsstring) : jsstring := trimEnd (trimStart s).

(** The character the pattern [/ +/] matches: U+0020 and nothing else. *)
Definition is_space (c : N) : bool := (c =? 32)%N.

(** [s.split(sep)] for a pattern [sep] that matches the non-empty runs of
    the characters selected by [is_sep].  [in_sep] says that the previous
    character belonged to a separator, [tok] is the token read so far. *)
Fixpoint split_runs (is_sep : N -> bool) (in_sep : bool) (tok s : jsstring)
  : list jsstring :=
  match s with
  | [] => [tok]
  | c :: s' =>
      if is_sep c
      then (if in_sep then split_runs is_sep true [] s'
            else tok :: split_runs is_sep true [] s')
      else split_runs is_sep false (tok ++ [c]) s'
  end.

(** [s.split(/ +/)]. *)
Definition split_spaces (s : jsstring) : list jsstring :=
  split_runs is_space false [] s.

End JsString.

(* ===================================================================== *)
(** ** Values, completions, the world *)
(* ===================================================================== *)

(** Reference to a function object. *)
Definition Callable := nat.

(** Reference to an object of a class derived from [System]. *)
Definition loc := positive.

Record User := { bot : bool }.

(** The part of [discordjs.Message] the dispatcher reads. *)
Record Message := { content : jsstring; author : User }.

(** The type [Any] of [@util/object]: what travels over the bus and what
    the fields of a System hold. *)
Inductive Any :=
| JUndefined
| JNull
| JBool (b : bool)
| JNum (n : Z)
| JStr (s : jsstring)
| JEvents                (* a reference to the shared [Events] registry *)
| JRef (l : loc)         (* a reference to a System object *)
| JMessage (m : Message).

(** What a [throw] statement raises: an [Error] object, a string, [null]
    or [undefined]. *)
Inductive Thrown :=
| ErrorObject (name message : jsstring)
| ThrownString (s : jsstring)
| ThrownNull
| ThrownUndefined.

(** The operations of the code on which the language itself raises a
    [TypeError]. *)
Inductive Fault :=
| EventExecute                 (* [event.execute(args)]: [execute] is no function *)
| CommandExecute               (* [this.commands[command].execute(...)]: likewise *)
| ToStringOfNull               (* [error.toString()] on [null] *)
| ToStringOfUndefined          (* [error.toString()] on [undefined] *)
| GetterOnly (k : jsstring).   (* an assignment to [k], inherited with a getter only *)

(** The text an engine gives to the [TypeError] of a [Fault]. *)
Class Wording := message_of : Fault -> jsstring.

Definition TypeError `{Wording} (fault : Fault) : Thrown :=
  ErrorObject (js "TypeError") (message_of fault).

(** What an operation that may raise yields. *)
Inductive Outcome (A : Type) :=
| Ok (a : A)
| Raised (e : Thrown).

Arguments Ok {A} a.
Arguments Raised {A} e.

(** [error.toString()]; for an [Error] this is [Error.prototype.toString],
    and there is no such method on [null] and [undefined]. *)
Definition toString `{Wording} (e : Thrown) : Outcome jsstring :=
  match e with
  | ErrorObject [] message => Ok message
  | ErrorObject name [] => Ok name
  | ErrorObject name message => Ok (name ++ js ": " ++ message)
  | ThrownString s => Ok s
  | ThrownNull => Raised (TypeError ToStringOfNull)
  | ThrownUndefined => Raised (TypeError ToStringOfUndefined)
  end.

(** How a call ends. *)
Inductive Completion :=
| Return (v : Any)
| Throw (e : Thrown).

Inductive Level := LLog | LWarn | LError | LDebug | LTrace.

Inductive Logged :=
| LogText (s : jsstring)
| LogThrown (e : Thrown).

(** An [Event] managed by [Events]. *)
Record Event := { _name : jsstring; _action : Callable }.

(** A [Command]; [None] is a name that is [undefined]. *)
Record Command := {
  name : option jsstring;
  description : jsstring;
  action : Callable
}.

(** The fields of an object. *)
Abbreviation Obj := (gmap jsstring Any).

(** What reading [table[k]] yields, for a table whose entries are objects
    of the class [T]. *)
Inductive Slot (T : Type) :=
| Missing            (* [undefined] *)
| Stored (x : T)     (* an object of the class [T] *)
| Foreign.           (* another value, which has no method [execute]: a
                        function, a string, a prototype object *)

Arguments Missing {T}.
Arguments Stored {T} x.
Arguments Foreign {T}.

(** The names of the properties of [Object.prototype]; all of them hold a
    function, but [__proto__], which yields the prototype. *)
Definition Object_prototype : list jsstring :=
  js <$> ["constructor"; "__defineGetter__"; "__defineSetter__"; "hasOwnProperty";
          "__lookupGetter__"; "__lookupSetter__"; "isPrototypeOf";
          "propertyIsEnumerable"; "toString"; "valueOf"; "__proto__";
          "toLocaleString"]%string.

(** [k] is found in [Object.prototype]. *)
Definition inherited (k : jsstring) : bool := bool_decide (k ∈ Object_prototype).

Record World := {
  events : gmap jsstring Event;         (* Events.events, its own properties *)
  commands : gmap jsstring Command;     (* CommandManager.commands, likewise *)
  commands_proto : option Command;      (* the Command that table has as its
                                           prototype, [None] for [Object.prototype] *)
  prefix : jsstring;                    (* CommandManager.prefix *)
  heap : gmap loc Obj;                  (* the System objects *)
  console : list (Level * Logged);      (* what the logger printed *)
  outbox : list (Message * jsstring)    (* message.reply(text) calls *)
}.

Definition set_events (f : gmap jsstring Event -> gmap jsstring Event) (w : World) : World :=
  {| events := f (events w); commands := commands w;
     commands_proto := commands_proto w; prefix := prefix w;
     heap := heap w; console := console w; outbox := outbox w |}.

Definition set_commands (f : gmap jsstring Command -> gmap jsstring Command) (w : World) : World :=
  {| events := events w; commands := f (commands w);
     commands_proto := commands_proto w; prefix := prefix w;
     heap := heap w; console := console w; outbox := outbox w |}.

Definition set_commands_proto (p : option Command) (w : World) : World :=
  {| events := events w; commands := commands w;
     commands_proto := p; prefix := prefix w;
     heap := heap w; console := console w; outbox := outbox w |}.

Definition set_heap (f : gmap loc Obj -> gmap loc Obj) (w : World) : World :=
  {| events := events w; commands := commands w;
     commands_proto := commands_proto w; prefix := prefix w;
     heap := f (heap w); console := console w; outbox := outbox w |}.

Definition set_console (f : list (Level * Logged) -> list (Level * Logged)) (w : World) : World :=
  {| events := events w; commands := commands w;
     commands_proto := commands_proto w; prefix := prefix w;
     heap := heap w; console := f (console w); outbox := outbox w |}.

Definition set_outbox (f : list (Message * jsstring) -> list (Message * jsstring)) (w : World) : World :=
  {| events := events w; commands := commands w;
     commands_proto := commands_proto w; prefix := prefix w;
     heap := heap w; console := console w; outbox := f (outbox w) |}.

(** The host: runs the body of a function object on its arguments. *)
Class Engine := call : Callable -> list Any -> World -> Completion * World.

(** The [logger] object: every method prints one line. *)
Module logger.

Definition print (lvl : Level) (x : Logged) (w : World) : World :=
  set_console (fun c => c ++ [(lvl, x)]) w.

Definition log := print LLog.
Definition warn := print LWarn.
Definition error := print LError.
Definition debug := print LDebug.

End logger.

(** [message.reply(text)]. *)
Definition reply (message : Message) (text : jsstring) (w : World) : World :=
  set_outbox (fun o => o ++ [(message, text)]) w.

(* ===================================================================== *)
(** ** events.ts *)
(* ===================================================================== *)

Module Event.
Section Event.
Context `{Engine}.

(** [execute(args) { return this._action(...args); }] *)
Definition execute (this : Event) (args : list Any) (w : World) : Completion * World :=
  call (_action this) args w.

End Event.
End Event.

Module Events.
Section Events.
Context `{Engine} `{Wording}.

(** [constructor() { this.events = {}; }] *)
Definition constructor (w : World) : World := set_events (fun _ => ∅) w.

(** [this.events[event_name]]: an Event the table holds, or else what
    [Object.prototype] has under that name. *)
Definition read (event_name : jsstring) (w : World) : Slot Event :=
  match events w !! event_name with
  | Some event => Stored event
  | None => if inherited event_name then Foreign else Missing
  end.

(** [check(event_name)] *)
Definition check (event_name : jsstring) (w : World) : bool :=
  match read event_name w with
  | Missing => false
  | _ => true
  end.

(** [on(event_name, action)] *)
Definition on (event_name : jsstring) (action : Callable) (w : World) : World :=
  match read event_name w with
  | Missing =>
      set_events <[event_name := {| _name := event_name; _action := action |}]> w
  | _ =>
      logger.warn (LogText (js "[EVENTS] Duplicate event_name: " ++ event_name)) w
  end.

(** [emit(event_name, ...args)] *)
Definition emit (event_name : jsstring) (args : list Any) (w : World) : Completion * World :=
  match read event_name w with
  | Stored event => Event.execute event args w
  | Foreign => (Throw (TypeError EventExecute), w)
  | Missing =>
      (Return JUndefined,
       logger.error (LogText (js "No event named: " ++ event_name ++ js " was found.")) w)
  end.

End Events.
End Events.

(* ===================================================================== *)
(** ** systems.ts *)
(* ===================================================================== *)

(** [this[k]] on an object that may lack the key. *)
Definition get (o : Obj) (k : jsstring) : Any := default JUndefined (o !! k).

(** [Object.keys(o)]. *)
Definition Object_keys (o : Obj) : list jsstring := (map_to_list o).*1.

(** The fields of the object at [this]. *)
Definition fields (this : loc) (w : World) : Obj := default ∅ (heap w !! this).

(** The object at [this] gets, or keeps, the own property [k], with the
    value [v]. *)
Definition set_field (this : loc) (k : jsstring) (v : Any) (w : World) : World :=
  set_heap (fun h => <[this := <[k := v]> (default ∅ (h !! this))]> h) w.

(** A value that is not an object and not [null]. *)
Definition primitive (v : Any) : bool :=
  match v with
  | JUndefined | JBool _ | JNum _ | JStr _ => true
  | JNull | JEvents | JRef _ | JMessage _ => false
  end.

(** [this[k] = v] on a System object.  Every name but [__proto__] becomes
    or stays an own property.  [__proto__] does so only where the object
    has it as an own property already; otherwise the assignment runs the
    setter inherited from [Object.prototype], which ignores a primitive
    value and makes an object or [null] the prototype of [this].  That
    object decides what later assignments to [this] do: the model stops
    there, which is the result [None]. *)
Definition assign (this : loc) (k : jsstring) (v : Any) (w : World) : option World :=
  if decide (k = js "__proto__") then
    if bool_decide (fields this w !! k ≠ None) then Some (set_field this k v w)
    else if primitive v then Some w
    else None
  else Some (set_field this k v w).

Module System.
Section System.
Context `{Engine} `{Wording}.

(** [constructor(events, name, serialize = false)], run on the freshly
    allocated object [this]; [events] is the registry of the world. *)
Definition constructor (this : loc) (name : jsstring) (serialize : bool) (w : World)
  : Completion * World :=
  let w := logger.log (LogText (js "[SYSTEM] Creating " ++ name ++ js " System.")) w in
  let w := set_field this (js "events") JEvents w in    (* this.events = events *)
  let w := set_field this (js "name") (JStr name) w in  (* this.name = name *)
  if serialize then
    match Events.emit (js "serialize::register") [JStr name; JRef this] w with
    | (Return _, w) => (Return JUndefined, w)
    | (Throw e, w) => (Throw e, w)
    end
  else (Return JUndefined, w).

(** [serialize()]: the clone is returned by value. *)
Definition serialize (this : loc) (w : World) : Obj :=
  let clone : Obj := fields this w in
  delete (js "event_manager") clone.

(** [deserialize(obj)]; [None] where an assignment of the loop replaces
    the prototype of [this], see [assign]. *)
Definition deserialize (this : loc) (obj : Obj) (w : World) : option World :=
  foldl (fun r k => w ← r; assign this k (get obj k) w) (Some w) (Object_keys obj).

End System.
End System.

(* ===================================================================== *)
(** ** command.ts *)
(* ===================================================================== *)

Module Command.
Section Command.
Context `{Engine}.

(** [execute(event_manager, message, args) { this.action(event_manager, message, ...args); }]:
    what the action returns is dropped. *)
Definition execute (this : Command) (event_manager message : Any) (args : list Any)
    (w : World) : Completion * World :=
  match call (action this) (event_manager :: message :: args) w with
  | (Return _, w) => (Return JUndefined, w)
  | (Throw e, w) => (Throw e, w)
  end.

End Command.
End Command.

Module CommandManager.
Section CommandManager.
Context `{Engine} `{Wording}.

(** What [table[k]] finds in a Command [p] that is the prototype of the
    table: the own properties [_name], [_description] and [action] of
    [p]; the getters [name] and [description] of the class, which run on
    the table and so read [table._name] and [table._description]; the
    method [execute] and the [constructor] of the class; and what
    [Object.prototype] has, where [__proto__] now yields [p]. *)
Definition through (p : Command) (own : gmap jsstring Command) (k : jsstring)
  : Slot Command :=
  let name_of_p : Slot Command :=               (* p._name, a string or undefined *)
    match name p with Some _ => Foreign | None => Missing end in
  if decide (k = js "__proto__") then Stored p
  else if decide (k = js "_name") then name_of_p
  else if decide (k = js "name") then
    match own !! js "_name" with Some c => Stored c | None => name_of_p end
  else if decide (k = js "description") then
    match own !! js "_description" with Some c => Stored c | None => Foreign end
  else if bool_decide (k ∈ [js "_description"; js "action"; js "execute"])
          || inherited k
  then Foreign
  else Missing.

(** [this.commands[command]] *)
Definition read (command : jsstring) (w : World) : Slot Command :=
  match commands w !! command with
  | Some c => Stored c
  | None =>
      match commands_proto w with
      | None => if inherited command then Foreign else Missing
      | Some p => through p (commands w) command
      end
  end.

(** The table does not hold [k], a Command is its prototype, and [k] is
    one of the two properties the class [Command] defines with a getter
    and no setter. *)
Definition getter_only (k : jsstring) (w : World) : bool :=
  bool_decide (commands w !! k = None) && bool_decide (commands_proto w ≠ None)
  && bool_decide (k ∈ [js "name"; js "description"]).

(** [this.commands[k] = command].  An own property is overwritten, and a
    name the table does not hold becomes an own property, with two
    exceptions: for [__proto__] the assignment runs the setter inherited
    from [Object.prototype], which makes [command] the prototype of the
    table; and where [k] is inherited with a getter only, the assignment
    raises. *)
Definition write (k : jsstring) (command : Command) (w : World) : Completion * World :=
  if bool_decide (commands w !! k = None) && bool_decide (k = js "__proto__")
  then (Return JUndefined, set_commands_proto (Some command) w)
  else if getter_only k w
  then (Throw (TypeError (GetterOnly k)), w)
  else (Return JUndefined, set_commands <[k := command]> w).

(** [add(command)] *)
Definition add (command : Command) (w : World) : Completion * World :=
  match name command with
  | None => (Return JUndefined, w)
  | Some n =>
      let w := logger.debug (LogText n) w in
      write n command w
  end.

(** The [catch (error) { ... }] block of [parse]. *)
Definition handle (message : Message) (error : Thrown) (w : World) : Completion * World :=
  let w := logger.error (LogThrown error) w in
  match toString error with
  | Ok text => (Return JUndefined, reply message text w)
  | Raised e => (Throw e, w)
  end.

(** The [try { ... } catch (error) { ... }] statement of [parse], where
    [this.commands[command]] is the Command [c]. *)
Definition try_execute (c : Command) (command : jsstring) (message : Message)
    (args : list jsstring) (w : World) : Completion * World :=
  let w := logger.log (LogText (js "[COMMANDS] Executing: " ++ command)) w in
  match Command.execute c JEvents (JMessage message) (JStr <$> args) w with
  | (Return _, w) => (Return JUndefined, w)
  | (Throw error, w) => handle message error w
  end.

(** The same statement where [this.commands[command]] is a value that
    has no method [execute]. *)
Definition try_foreign (command : jsstring) (message : Message) (w : World)
  : Completion * World :=
  let w := logger.log (LogText (js "[COMMANDS] Executing: " ++ command)) w in
  handle message (TypeError CommandExecute) w.

(** The tokens [parse] computes from the text of a message. *)
Definition tokens (prefix content : jsstring) : list jsstring :=
  JsString.split_spaces (JsString.trim (JsString.slice (List.length prefix) content)).

(** [parse(message)] *)
Definition parse (message : Message) (w : World) : Completion * World :=
  if negb (JsString.startsWith (content message) (prefix w)) || bot (author message)
  then (Return JUndefined, w)
  else
    match tokens (prefix w) (content message) with   (* args.shift() *)
    | [] => (Return JUndefined, w)
    | command :: args =>
        match read command w with
        | Missing => (Return JUndefined, w)
        | Stored c => try_execute c command message args w
        | Foreign => try_foreign command message w
        end
    end.

(** The command name, the Command and the arguments a message resolves
    to, where it resolves to a Command: the part of [parse] that runs
    before the action. *)
Definition resolve (message : Message) (w : World)
  : option (jsstring * Command * list jsstring) :=
  if negb (JsString.startsWith (content message) (prefix w)) || bot (author message)
  then None
  else
    match tokens (prefix w) (content message) with
    | [] => None
    | command :: args =>
        match read command w with
        | Stored c => Some (command, c, args)
        | _ => None
        end
    end.

End CommandManager.
End CommandManager.

(* ===================================================================== *)
(** ** The tokenizer as the specification words it *)
(* ===================================================================== *)

(** "Strip the prefix, trim, and tokenize on runs of whitespace." *)
Definition tokens_spec (prefix content : jsstring) : list jsstring :=
  JsString.split_runs JsString.is_whitespace false []
    (JsString.trim (JsString.slice (List.length prefix) content)).

(** Dispatch as the specification words it: the command name and the
    arguments are the tokens of [tokens_spec]. *)
Definition dispatches_on_whitespace_tokens `{Engine} `{Wording} (message : Message) (w : World) : Prop :=
  forall command args c,
    JsString.startsWith (content message) (prefix w) = true ->
    bot (author message) = false ->
    tokens_spec (prefix w) (content message) = command :: args ->
    commands w !! command = Some c ->
    CommandManager.parse message w = CommandManager.try_execute c command message args w.

(* ===================================================================== *)
(** ** Reachable registries *)
(* ===================================================================== *)

(** The registries [Events] can get into: it starts empty, handlers come
    in through [on] only, and steps that leave the table alone (logging,
    replies, the other classes) do not matter. *)
Inductive reachable : World -> Prop :=
| reachable_new w : events w = ∅ -> reachable w
| reachable_on w event_name action :
    reachable w -> reachable (Events.on event_name action w)
| reachable_frame w w' : reachable w -> events w' = events w -> reachable w'.

(** No two entries of the table carry the same name. *)
Definition one_handler_per_name (w : World) : Prop :=
  forall k1 k2 e1 e2,
    events w !! k1 = Some e1 -> events w !! k2 = Some e2 ->
    _name e1 = _name e2 -> k1 = k2 /\ e1 = e2.

(** Every entry is stored under its own name. *)
Definition keyed_by_name (w : World) : Prop :=
  forall k e, events w !! k = Some e -> _name e = k.

(* ===================================================================== *)
(** ** A small host, for running the model on examples *)
(* ===================================================================== *)

Module Demo.

(** The string arguments of a call, each followed by [|]. *)
Fixpoint joined (args : list Any) : jsstring :=
  match args with
  | JStr s :: rest => s ++ js "|" ++ joined rest
  | _ :: rest => joined rest
  | [] => []
  end.

(** Function objects of the examples.
    - 0: a command that replies with its arguments;
    - 1: a command that raises [Error: boom];
    - 2 and 3: two handlers, answering 1 and 2;
    - 4: a serializer, which prints the name it is given;
    - 5: a command that runs [throw null];
    - anything else returns [undefined]. *)
Definition engine : Engine := fun f args w =>
  match f with
  | 0 =>
      match args with
      | _ :: JMessage m :: rest => (Return JUndefined, reply m (joined rest) w)
      | _ => (Return JUndefined, w)
      end
  | 1 => (Throw (ErrorObject (js "Error") (js "boom")), w)
  | 2 => (Return (JNum 1), w)
  | 3 => (Return (JNum 2), w)
  | 4 =>
      match args with
      | JStr n :: JRef _ :: _ => (Return (JBool true), logger.debug (LogText n) w)
      | _ => (Return JUndefined, w)
      end
  | 5 => (Throw ThrownNull, w)
  | _ => (Return JUndefined, w)
  end.

(** The wording of V8. *)
Definition v8 : Wording := fun fault =>
  match fault with
  | EventExecute => js "event.execute is not a function"
  | CommandExecute => js "this.commands[command].execute is not a function"
  | ToStringOfNull => js "Cannot read properties of null (reading 'toString')"
  | ToStringOfUndefined => js "Cannot read properties of undefined (reading 'toString')"
  | GetterOnly k =>
      js "Cannot set property " ++ k ++ js " of #<Command> which has only a getter"
  end.

Definition echo : Command :=
  {| name := Some (js "echo"); description := js "Repeats its arguments."; action := 0 |}.

Definition boom : Command :=
  {| name := Some (js "boom"); description := js "Always fails."; action := 1 |}.

Definition nameless : Command :=
  {| name := None; description := js "No name."; action := 0 |}.

Definition unnamed : Command :=
  {| name := Some []; description := js "The empty name."; action := 0 |}.

Definition null_thrower : Command :=
  {| name := Some (js "null"); description := js "Throws null."; action := 5 |}.

Definition proto : Command :=
  {| name := Some (js "__proto__"); description := js "Named __proto__."; action := 0 |}.

Definition human : User := {| bot := false |}.

Definition said (text : jsstring) : Message := {| content := text; author := human |}.

(** A scope with the prefix [!], no handler and no command. *)
Definition empty : World :=
  {| events := ∅; commands := ∅; commands_proto := None; prefix := js "!";
     heap := ∅; console := []; outbox := [] |}.

(** The same scope with [echo] and [boom] registered. *)
Definition world : World :=
  (CommandManager.add (H0 := v8) boom (CommandManager.add (H0 := v8) echo empty).2).2.

(** A System named [Example], built without serialization, that then
    sets [this.state = 3]. *)
Definition with_system : World :=
  set_field 1%positive (js "state") (JNum 3)
    (System.constructor (H := engine) (H0 := v8) 1%positive (js "Example") false empty).2.

(** The empty scope once a serializer listens on [serialize::register]. *)
Definition with_serializer : World := Events.on (js "serialize::register") 4 empty.

(** [!echo hello<TAB>world] *)
Definition tabbed : Message := said (js "!echo hello" ++ [9%N] ++ js "world").

End Demo.

(* ===================================================================== *)
(** ** Sequences of registrations *)
(* ===================================================================== *)

(** [events.on(name, action)] for every pair of [regs], in order. *)
Definition on_all (regs : list (jsstring * Callable)) (w : World) : World :=
  foldl (fun w r => Events.on r.1 r.2 w) w regs.

(** The action of the first pair of [regs] registered under [event_name]. *)
Fixpoint first_bound (event_name : jsstring) (regs : list (jsstring * Callable))
  : option Callable :=
  match regs with
  | [] => None
  | (n, action) :: regs' =>
      if decide (n = event_name) then Some action else first_bound event_name regs'
  end.

(** [manager.add(command)] for every Command of [cs], in order, each call
    on its own: one that raises does not keep the next from running. *)
Definition add_all `{Wording} (cs : list Command) (w : World) : World :=
  foldl (fun w c => (CommandManager.add c w).2) w cs.

(** The last Command of [cs] whose name is [n]. *)
Fixpoint last_named (n : jsstring) (cs : list Command) : option Command :=
  match cs with
  | [] => None
  | c :: cs' =>
      match last_named n cs' with
      | Some c' => Some c'
      | None => if decide (name c = Some n) then Some c else None
      end
  end.

(** The Commands of [cs] that have a name. *)
Definition named (cs : list Command) : list Command :=
  filter (fun c => name c ≠ None) cs.

(* ===================================================================== *)
(** ** permissions.ts *)
(* ===================================================================== *)

Module Permissions.

(** [static register_events(events, permissionCallbackFunction)] *)
Definition register_events (permissionCallbackFunction : Callable) (w : World) : World :=
  Events.on (js "permissions::check-user") permissionCallbackFunction w.

End Permissions.

(* ===================================================================== *)
(** ** plugin.ts *)
(* ===================================================================== *)

(** [interface Plugin { name: string; }] *)
Class Plugin (T : Type) := plugin_name : T -> jsstring.

Module RemotePlugin.

(** [load_git(url, folder = 'src', folder_ignore_list = ['lib'])] *)
Definition load_git (url folder : jsstring) (folder_ignore_list : list jsstring)
    (w : World) : World :=
  logger.log (LogText (js "Loading Plugin from git:")) w.

(** [load_text(url)] *)
Definition load_text (url : jsstring) (w : World) : World :=
  logger.log (LogText (js "Loading Plugin from Remote Text file: " ++ url)) w.

End RemotePlugin.

Module Plugins.
Section Plugins.
Context {T : Type} `{Plugin T}.

(** [constructor() { this.plugins = {}; }]: the own properties of the
    table. *)
Definition constructor : gmap jsstring T := ∅.

(** [load_plugin(url)] *)
Definition load_plugin (url : jsstring) (w : World) : World :=
  logger.debug (LogText url) w.

(** [add_plugin(plugin)], on the table [this.plugins], which has
    [Object.prototype] as its prototype.  A plugin named [__proto__]
    becomes the prototype of the table unless the table has that name as
    an own property; what later assignments do is then decided by the
    class of the plugin, and the model stops there: the result [None]. *)
Definition add_plugin (plugin : T) (plugins : gmap jsstring T) : option (gmap jsstring T) :=
  if decide (plugin_name plugin = js "__proto__")
  then
    if bool_decide (plugins !! plugin_name plugin ≠ None)
    then Some (<[plugin_name plugin := plugin]> plugins)
    else None
  else Some (<[plugin_name plugin := plugin]> plugins).

End Plugins.
End Plugins.

(** The last plugin of [ps] whose name is [n]. *)
Fixpoint last_plugin {T : Type} `{Plugin T} (n : jsstring) (ps : list T) : option T :=
  match ps with
  | [] => None
  | p :: ps' =>
      match last_plugin n ps' with
      | Some p' => Some p'
      | None => if decide (plugin_name p = n) then Some p else None
      end
  end.

(** A plugin record for the examples. *)
Record SamplePlugin := { sample_name : jsstring; sample_version : nat }.

#[export] Instance sample_plugin : Plugin SamplePlugin := sample_name.

(** [plugins.add_plugin(p)] for every plugin of [ps], in order. *)
Definition add_plugins {T : Type} `{Plugin T} (ps : list T) (table : gmap jsstring T)
  : option (gmap jsstring T) :=
  foldl (fun r p => table ← r; Plugins.add_plugin p table) (Some table) ps.

(* ===================================================================== *)
(** ** youtube.ts *)
(* ===================================================================== *)

(** The methods of [Youtube] are [async]: each runs like an ordinary
    method up to its first [await] on a promise of the host, and goes on
    when the host settles that promise.  The only such promise is the one
    of [channel.join()]; a method is modelled by the run up to that point
    ([Pending] says whether it was reached) and by the run after it. *)
Module Youtube.

Inductive PlayerState := isPlaying | stopped | idle.

#[export] Instance PlayerState_eq_dec : EqDecision PlayerState.
Proof. solve_decision. Defined.

(** The state inside a template literal. *)
Definition state_text (s : PlayerState) : jsstring :=
  match s with
  | isPlaying => js "isPlaying"
  | stopped => js "stopped"
  | idle => js "idle"
  end.

(** The part of [discordjs.VoiceChannel] the plugin reads: [channel.name],
    [channel.guild.name] and [channel.joinable]. *)
Record VoiceChannel := {
  channel_name : jsstring;
  guild_name : jsstring;
  joinable : bool
}.

(** A handle returned by [setTimeout]. *)
Definition Timer := nat.

(** A stream returned by [ytdl(url, ...)], known by its url. *)
Definition Readable := jsstring.

(** A connection [channel.join()] resolves to. *)
Definition VoiceConnection := nat.

(** What the plugin asks of the host, besides printing and replying. *)
Inductive HostCall :=
| SetTimeout (t : Timer) (delay : N) (channel : VoiceChannel)
| ClearTimeout (t : Timer)
| Ytdl (url : jsstring)
| Join (channel : VoiceChannel)
| Leave (channel : VoiceChannel)
| OnEnd (audio : Readable) (message : Message) (channel : VoiceChannel)
| OnError (connection : VoiceConnection)
| Play (connection : VoiceConnection) (audio : Readable)
| Send (message : Message) (text : jsstring).

(** The fields of the plugin, with the world it prints and replies into,
    the calls it made to the host, and the number of timers the host has
    handed out. *)
Record Player := {
  connection_timer : option Timer;
  play_queue : list jsstring;
  state : PlayerState;
  world : World;
  calls : list HostCall;
  timers : nat
}.

Definition set_connection_timer (t : option Timer) (p : Player) : Player :=
  {| connection_timer := t; play_queue := play_queue p; state := state p;
     world := world p; calls := calls p; timers := timers p |}.

Definition set_play_queue (q : list jsstring) (p : Player) : Player :=
  {| connection_timer := connection_timer p; play_queue := q; state := state p;
     world := world p; calls := calls p; timers := timers p |}.

Definition set_state (s : PlayerState) (p : Player) : Player :=
  {| connection_timer := connection_timer p; play_queue := play_queue p; state := s;
     world := world p; calls := calls p; timers := timers p |}.

Definition in_world (f : World -> World) (p : Player) : Player :=
  {| connection_timer := connection_timer p; play_queue := play_queue p;
     state := state p; world := f (world p); calls := calls p; timers := timers p |}.

Definition host (c : HostCall) (p : Player) : Player :=
  {| connection_timer := connection_timer p; play_queue := play_queue p;
     state := state p; world := world p; calls := calls p ++ [c];
     timers := timers p |}.

(** [setTimeout(callback, delay)]: a fresh handle. *)
Definition setTimeout (delay : N) (channel : VoiceChannel) (p : Player) : Timer * Player :=
  let t := timers p in
  (t, {| connection_timer := connection_timer p; play_queue := play_queue p;
         state := state p; world := world p;
         calls := calls p ++ [SetTimeout t delay channel]; timers := S t |}).

(** Where a method stopped: at its end, or at [await this.connect(channel)]
    with the stream found for the link. *)
Inductive Pending :=
| Finished
| AwaitJoin (audio : Readable) (message : Message) (channel : VoiceChannel).

(** [static IDLE_TIME_LIMIT: number = 1000 * 60 * 0.25] *)
Definition IDLE_TIME_LIMIT : N := (1000 * 60 / 4)%N.

(** The fields as the constructor sets them. *)
Definition initial (w : World) : Player :=
  {| connection_timer := None; play_queue := []; state := idle;
     world := w; calls := []; timers := 0 |}.

Section Youtube.

(** [ytdl.validateURL] *)
Variable validateURL : jsstring -> bool.

(** [leave_channel(channel)] *)
Definition leave_channel (channel : VoiceChannel) (p : Player) : Player :=
  let p :=
    in_world (logger.log (LogText (js "[YOUTUBE] Leaving Channel: { " ++ guild_name channel
                                     ++ js " }:{ " ++ channel_name channel ++ js " }"))) p in
  host (Leave channel) p.

(** [set_leave_timer(channel)] *)
Definition set_leave_timer (channel : VoiceChannel) (p : Player) : Player :=
  let '(t, p) := setTimeout IDLE_TIME_LIMIT channel p in
  set_connection_timer (Some t) p.

(** [clear_timer()] *)
Definition clear_timer (p : Player) : Player :=
  match connection_timer p with
  | None => p
  | Some t => host (ClearTimeout t) p
  end.

(** [join_channel(channel)] *)
Definition join_channel (channel : VoiceChannel) (p : Player) : Player :=
  host (Join channel) p.

(** [connect(channel)], up to the promise of [channel.join()]. *)
Definition connect (channel : VoiceChannel) (p : Player) : Player :=
  let p :=
    in_world (logger.log (LogText (js "[YOUTUBE][VOICE] Connecting to { "
                                     ++ guild_name channel ++ js " }:{ "
                                     ++ channel_name channel ++ js " }"))) p in
  join_channel channel p.

(** [find_video(query_or_url)] *)
Definition find_video (query_or_url : jsstring) (p : Player) : option Readable * Player :=
  if validateURL query_or_url
  then (Some query_or_url, host (Ytdl query_or_url) p)
  else (None, p).

(** [play(connection, audio)] *)
Definition play (connection : VoiceConnection) (audio : Readable) (p : Player) : Player :=
  let p := host (OnError connection) p in
  host (Play connection audio) p.

(** [stop(channel, message)] *)
Definition stop (channel : VoiceChannel) (message : Message) (p : Player) : Player :=
  let p := host (Send message (js "[YOUTUBE] No videos in queue. Finishing...")) p in
  set_state stopped p.

(** [stream_audio(message, channel)], up to [await this.connect(channel)]. *)
Definition stream_audio (message : Message) (channel : VoiceChannel) (p : Player)
  : Pending * Player :=
  (* const query_or_url = this.play_queue.shift() *)
  let query_or_url := head (play_queue p) in
  let p := set_play_queue (tail (play_queue p)) p in
  let exit (reason : jsstring) :=
    let p :=
      in_world (logger.log (LogText (js "[YOUTUBE] Exiting Loop. Reason: { "
                                       ++ reason ++ js " }"))) p in
    let p := set_leave_timer channel p in
    (Finished, set_state idle p) in
  match query_or_url with
  | None => exit (js "No more videos")
  | Some q =>
      if bool_decide (state p = stopped)
      then exit (match q with [] => js "No more videos" | _ => state_text (state p) end)
      else
        let p := clear_timer p in
        match find_video q p with
        | (None, p) =>
            (Finished,
             in_world (reply message
                         (js "Error 01: Invalid video link. Cannot search youtube at this time.")) p)
        | (Some audio, p) => (AwaitJoin audio message channel, connect channel p)
        end
  end.

(** [stream_audio], from the connection [channel.join()] resolved to. *)
Definition stream_audio_resume (audio : Readable) (message : Message)
    (channel : VoiceChannel) (connection : VoiceConnection) (p : Player) : Player :=
  let p := host (OnEnd audio message channel) p in
  play connection audio p.

(** [execute_queue(message, channel, query_or_url)], up to the first
    promise of the host. *)
Definition execute_queue (message : Message) (channel : option VoiceChannel)
    (query_or_url : option jsstring) (p : Player) : Pending * Player :=
  match query_or_url with
  | None => (Finished, in_world (reply message (js "Usage: play <url>")) p)
  | Some q =>
      match channel with
      | None =>
          (Finished,
           in_world (reply message (js "Please join a Voice channel on this Server.")) p)
      | Some channel =>
          if negb (joinable channel)
          then (Finished,
                in_world (reply message (js "Cannot join channel: " ++ channel_name channel)) p)
          else
            let p := set_play_queue (play_queue p ++ [q]) p in
            let p := in_world (reply message (js "Added: " ++ q)) p in
            if bool_decide (state p = idle) || bool_decide (state p = stopped)
            then stream_audio message channel (set_state isPlaying p)
            else (Finished, p)
      end
  end.

(** The action of the command [play]; [member] is [message.member], and
    for a member its [voice.channel]. *)
Definition play_action (message : Message) (member : option (option VoiceChannel))
    (query_or_url : option jsstring) (p : Player) : Pending * Player :=
  match member with
  | None => (Finished, in_world (reply message (js "Cannot stream in DMs.")) p)
  | Some channel => execute_queue message channel query_or_url p
  end.

(** What can happen to the plugin: a [play] command, the end of the
    stream that is playing, the connection that was awaited, the timer
    that fires. *)
Inductive step : Player -> Player -> Prop :=
| step_play message member query_or_url p :
    step p (play_action message member query_or_url p).2
| step_end message channel p :
    step p (stream_audio message channel p).2
| step_joined audio message channel connection p :
    step p (stream_audio_resume audio message channel connection p)
| step_timeout channel p :
    step p (leave_channel channel p).

End Youtube.

(** The plugin never calls [stop], so it is never [stopped]; and it is
    [idle] only with an empty queue. *)
Definition consistent (p : Player) : Prop :=
  state p ≠ stopped /\ (state p = idle -> play_queue p = []).

(** The call [clear_timer] makes to the host, if any. *)
Definition cleared (p : Player) : list HostCall :=
  match connection_timer p with
  | Some t => [ClearTimeout t]
  | None => []
  end.

(** The links handed to [ytdl], in the order of the calls. *)
Fixpoint ytdl_urls (cs : list HostCall) : list jsstring :=
  match cs with
  | [] => []
  | Ytdl url :: cs' => url :: ytdl_urls cs'
  | _ :: cs' => ytdl_urls cs'
  end.

(** A [play] command as the action receives it. *)
Definition PlayCommand : Type :=
  Message * option (option VoiceChannel) * option jsstring.

(** The [play] commands of [cmds], one after the other. *)
Definition play_all (validateURL : jsstring -> bool) (cmds : list PlayCommand)
    (p : Player) : Player :=
  foldl (fun p cmd => (play_action validateURL cmd.1.1 cmd.1.2 cmd.2 p).2) p cmds.

(** The links of [qs] queued one after the other from [channel]. *)
Definition queue_all (validateURL : jsstring -> bool) (message : Message)
    (channel : VoiceChannel) (qs : list jsstring) (p : Player) : Player :=
  foldl (fun p q => (execute_queue validateURL message (Some channel) (Some q) p).2) p qs.

(** [n] streams ending one after the other, each followed by the
    connection that the next one awaits. *)
Fixpoint end_all (validateURL : jsstring -> bool) (message : Message)
    (channel : VoiceChannel) (n : nat) (p : Player) : Player :=
  match n with
  | 0 => p
  | S n' =>
      match stream_audio validateURL message channel p with
      | (AwaitJoin audio message' channel', p') =>
          end_all validateURL message channel n'
            (stream_audio_resume audio message' channel' 0 p')
      | (Finished, p') => end_all validateURL message channel n' p'
      end
  end.

End Youtube.

(** Values for running the plugin on examples. *)
Module Studio.

(** A stand-in for [ytdl.validateURL]: links start with [https://]. *)
Definition is_link (q : jsstring) : bool := JsString.startsWith q (js "https://").

Definition lobby : Youtube.VoiceChannel :=
  {| Youtube.channel_name := js "Lobby"; Youtube.guild_name := js "Guild";
     Youtube.joinable := true |}.

Definition locked : Youtube.VoiceChannel :=
  {| Youtube.channel_name := js "Staff"; Youtube.guild_name := js "Guild";
     Youtube.joinable := false |}.

Definition request : Message := Demo.said (js "!play https://a").

(** The plugin after [!play https://a] from the lobby, once connected. *)
Definition playing : Youtube.Player :=
  Youtube.stream_audio_resume (js "https://a") request lobby 0
    (Youtube.play_action is_link request (Some (Some lobby)) (Some (js "https://a"))
       (Youtube.initial Demo.empty)).2.

End Studio.

(** The examples below are run with the wording of V8. *)
#[global] Existing Instance Demo.v8.

(** Closes a goal between closed terms by evaluation. *)
Ltac by_evaluation := vm_compute; reflexivity.

(** Closes a decidable goal between closed terms by evaluation. *)
Ltac by_decision := apply (bool_decide_unpack _); vm_compute; exact I.

(* ===================================================================== *)
(** * Properties *)
(* ===================================================================== *)

(** ** Strings *)

Lemma startsWith_app (p s : jsstring) : JsString.startsWith (p ++ s) p = true.
Proof.
  induction p as [|a p IH]; simpl; [done|].
  by rewrite decide_True.
Qed.

Lemma startsWith_inv (s p : jsstring) :
  JsString.startsWith s p = true -> exists r, s = p ++ r.
Proof.
  revert s. induction p as [|a p IH]; intros s Hs.
  - exists s. reflexivity.
  - destruct s as [|b s]; simpl in Hs; [done|].
    case_decide; [subst b|done].
    destruct (IH _ Hs) as [r ->]. by exists r.
Qed.

Lemma slice_app (p s : jsstring) : JsString.slice (List.length p) (p ++ s) = s.
Proof. unfold JsString.slice. apply drop_app_length. Qed.

Lemma trimStart_whitespace (ws : jsstring) :
  forallb JsString.is_whitespace ws = true -> JsString.trimStart ws = [].
Proof.
  induction ws as [|c ws IH]; simpl; [done|].
  intros [Hc Hws]%andb_prop. rewrite Hc. auto.
Qed.

Lemma trim_whitespace (ws : jsstring) :
  forallb JsString.is_whitespace ws = true -> JsString.trim ws = [].
Proof.
  intros Hws. unfold JsString.trim. by rewrite trimStart_whitespace.
Qed.

(** A string without separator characters is a single token. *)
Lemma split_runs_no_sep (is_sep : N -> bool) (in_sep : bool) (tok s : jsstring) :
  forallb (fun c => negb (is_sep c)) s = true ->
  JsString.split_runs is_sep in_sep tok s = [tok ++ s].
Proof.
  revert in_sep tok. induction s as [|c s IH]; intros in_sep tok; simpl.
  - by rewrite app_nil_r.
  - intros [Hc Hs]%andb_prop. apply negb_true_iff in Hc. rewrite Hc.
    rewrite IH by done. by rewrite <- app_assoc.
Qed.

(** No token of [split(/ +/)] holds a space. *)
Lemma split_runs_tokens (is_sep : N -> bool) (in_sep : bool) (tok s t : jsstring) :
  forallb (fun c => negb (is_sep c)) tok = true ->
  In t (JsString.split_runs is_sep in_sep tok s) ->
  forallb (fun c => negb (is_sep c)) t = true.
Proof.
  revert in_sep tok. induction s as [|c s IH]; intros in_sep tok Htok; simpl.
  - by intros [<-|[]].
  - destruct (is_sep c) eqn:Hc.
    + destruct in_sep; simpl.
      * apply IH. done.
      * intros [<-|Hin]; [done|]. by apply (IH true []).
    + apply IH. rewrite forallb_app, Htok. simpl. by rewrite Hc.
Qed.

(** ** The world after a log line or a reply *)

Lemma print_console lvl x w :
  console (logger.print lvl x w) = console w ++ [(lvl, x)].
Proof. done. Qed.

Lemma reply_outbox message text w :
  outbox (reply message text w) = outbox w ++ [(message, text)].
Proof. done. Qed.

(** ** Reading a table through its prototype *)

Lemma toString_ErrorObject `{Wording} (name message : jsstring) :
  exists text, toString (ErrorObject name message) = Ok text.
Proof. destruct name, message; simpl; eauto. Qed.

Lemma toString_Ok `{Wording} (error : Thrown) (text : jsstring) :
  toString error = Ok text -> error ≠ ThrownNull /\ error ≠ ThrownUndefined.
Proof. by destruct error. Qed.

Lemma events_read_stored event_name w e :
  events w !! event_name = Some e -> Events.read event_name w = Stored e.
Proof. intros Hb. unfold Events.read. by rewrite Hb. Qed.

Lemma check_spec event_name w :
  Events.check event_name w = true <->
  is_Some (events w !! event_name) \/ inherited event_name = true.
Proof.
  unfold Events.check, Events.read.
  destruct (events w !! event_name) as [e|]; [by split; eauto|].
  destruct (inherited event_name); split; try done; [by right|].
  by intros [[? ?]|?].
Qed.

Lemma check_false event_name w :
  Events.check event_name w = false <->
  events w !! event_name = None /\ inherited event_name = false.
Proof.
  unfold Events.check, Events.read.
  destruct (events w !! event_name) as [e|]; [by split; [|intros []]|].
  destruct (inherited event_name); split; try done. by intros [].
Qed.

Lemma events_read_missing event_name w :
  Events.check event_name w = false -> Events.read event_name w = Missing.
Proof.
  intros [Hb Hi]%check_false. unfold Events.read. by rewrite Hb, Hi.
Qed.

(** ** Events *)

Lemma on_bound event_name action first w :
  events w !! event_name = Some first ->
  Events.on event_name action w =
  logger.warn (LogText (js "[EVENTS] Duplicate event_name: " ++ event_name)) w.
Proof.
  intros Hb. unfold Events.on. by rewrite (events_read_stored _ _ first).
Qed.

Lemma on_inherited event_name action w :
  events w !! event_name = None -> inherited event_name = true ->
  Events.on event_name action w =
  logger.warn (LogText (js "[EVENTS] Duplicate event_name: " ++ event_name)) w.
Proof.
  intros Hb Hi. unfold Events.on, Events.read. by rewrite Hb, Hi.
Qed.

Lemma on_fresh event_name action w :
  Events.check event_name w = false ->
  Events.on event_name action w =
  set_events <[event_name := {| _name := event_name; _action := action |}]> w.
Proof.
  intros Hb. unfold Events.on. by rewrite events_read_missing.
Qed.

(** Whatever [on] does, it does one of these two things. *)
Lemma on_cases event_name action w :
  Events.check event_name w = false /\
    Events.on event_name action w =
    set_events <[event_name := {| _name := event_name; _action := action |}]> w
  \/
  Events.check event_name w = true /\
    Events.on event_name action w =
    logger.warn (LogText (js "[EVENTS] Duplicate event_name: " ++ event_name)) w.
Proof.
  destruct (Events.check event_name w) eqn:Hc.
  - right. split; [done|]. unfold Events.check in Hc. unfold Events.on.
    by destruct (Events.read event_name w).
  - left. split; [done|]. by apply on_fresh.
Qed.

Lemma on_keyed_by_name event_name action w :
  keyed_by_name w -> keyed_by_name (Events.on event_name action w).
Proof.
  intros Hk k e. destruct (on_cases event_name action w) as [[_ ->]|[_ ->]].
  - simpl. destruct (decide (event_name = k)) as [->|Hne].
    + rewrite lookup_insert_eq. by intros [= <-].
    + rewrite lookup_insert_ne by done. apply Hk.
  - apply Hk.
Qed.

Lemma reachable_keyed_by_name w : reachable w -> keyed_by_name w.
Proof.
  induction 1 as [w Hnew|w event_name action _ IH|w w' _ IH Heq]; intros k e.
  - by rewrite Hnew, lookup_empty.
  - by apply on_keyed_by_name.
  - rewrite Heq. apply IH.
Qed.

Lemma keyed_one_handler w : keyed_by_name w -> one_handler_per_name w.
Proof.
  intros Hk k1 k2 e1 e2 H1 H2 Hn.
  assert (k1 = k2) as <-.
  { rewrite <- (Hk _ _ H1), <- (Hk _ _ H2). done. }
  split; [done|]. congruence.
Qed.

Lemma emit_bound `{Engine} `{Wording} event_name args w e :
  events w !! event_name = Some e ->
  Events.emit event_name args w = call (_action e) args w.
Proof.
  intros Hb. unfold Events.emit, Event.execute.
  by rewrite (events_read_stored _ _ e).
Qed.

(** An [emit] of a name that reads as [undefined]: one error line. *)
Lemma emit_missing `{Engine} `{Wording} (event_name : jsstring) (args : list Any)
    (w : World) :
  Events.check event_name w = false ->
  Events.emit event_name args w =
    (Return JUndefined,
     logger.error (LogText (js "No event named: " ++ event_name ++ js " was found.")) w).
Proof.
  intros Hb. unfold Events.emit. by rewrite events_read_missing.
Qed.

(** C3. Registering a handler under a name that is already bound changes
    nothing but the console, where it leaves one warning; the table is
    the same, so an [emit] of the name runs the handler bound first.  In
    particular, after two registrations of a name that read as
    [undefined] before, the first is bound, the second only warns, and
    [emit] runs the first of the two.  (A name found in
    [Object.prototype] does not read as [undefined]: no handler is ever
    bound to it, every registration only warns.)  Every registry
    reachable from the empty one has at most one handler per name. *)
Theorem on_duplicate_first_wins `{Engine} `{Wording} :
  (forall w event_name first action,
     events w !! event_name = Some first ->
     let w' := Events.on event_name action w in
     w' = logger.warn (LogText (js "[EVENTS] Duplicate event_name: " ++ event_name)) w /\
     console w' = console w ++
       [(LWarn, LogText (js "[EVENTS] Duplicate event_name: " ++ event_name))] /\
     events w' = events w /\
     forall args, Events.emit event_name args w' = call (_action first) args w') /\
  (forall w event_name action1 action2 args,
     Events.check event_name w = false ->
     let w1 := Events.on event_name action1 w in
     let w' := Events.on event_name action2 w1 in
     events w1 !! event_name = Some {| _name := event_name; _action := action1 |} /\
     w' = logger.warn (LogText (js "[EVENTS] Duplicate event_name: " ++ event_name)) w1 /\
     events w' = events w1 /\
     Events.emit event_name args w' = call action1 args w') /\
  (forall w event_name action,
     events w !! event_name = None -> inherited event_name = true ->
     let w' := Events.on event_name action w in
     w' = logger.warn (LogText (js "[EVENTS] Duplicate event_name: " ++ event_name)) w /\
     events w' = events w) /\
  (forall w, reachable w -> one_handler_per_name w).
Proof.
  split; [|split; [|split]].
  - intros w event_name first action Hb w'. subst w'.
    rewrite (on_bound _ _ first) by done.
    repeat split. intros args. by apply emit_bound.
  - intros w event_name action1 action2 args Hb w1 w'. subst w1 w'.
    set (first := {| _name := event_name; _action := action1 |}).
    assert (events (Events.on event_name action1 w) !! event_name = Some first) as Hf.
    { rewrite on_fresh by done. simpl. by rewrite lookup_insert_eq. }
    rewrite (on_bound _ action2 first) by done.
    do 3 (split; [done|]). by apply (emit_bound _ _ _ first).
  - intros w event_name action Hb Hi w'. subst w'.
    by rewrite on_inherited.
  - intros w Hr. by apply keyed_one_handler, reachable_keyed_by_name.
Qed.

Lemma on_duplicate_first_wins_witness :
  let w := Events.on (js "ping") 2 Demo.empty in
  let w' := Events.on (js "ping") 3 w in
  events w !! js "ping" = Some {| _name := js "ping"; _action := 2 |} /\
  events w' = events w /\
  Events.emit (H := Demo.engine) (js "ping") [] w' = (Return (JNum 1), w') /\
  events (Events.on (js "toString") 2 Demo.empty) = events Demo.empty /\
  one_handler_per_name w'.
Proof.
  intros w w'.
  assert (events w !! js "ping" = Some {| _name := js "ping"; _action := 2 |}) as Hb
    by by_evaluation.
  destruct (on_duplicate_first_wins (H := Demo.engine)) as (Hdup & _ & Hinh & Hone).
  destruct (Hdup w (js "ping") _ 3 Hb) as (_ & _ & Hev & Hemit).
  split; [exact Hb|]. split; [exact Hev|]. split; [|split].
  - unfold w'. rewrite (Hemit []). reflexivity.
  - exact (proj2 (Hinh Demo.empty (js "toString") 2 eq_refl eq_refl)).
  - apply Hone. do 2 apply reachable_on. apply reachable_new. reflexivity.
Defined.

(** C4, on the code.  A name that no handler is bound to, but that
    [Object.prototype] has, does not read as [undefined]: [emit] takes the
    value found there for an Event, calls its method [execute], which is
    no function, and the [TypeError] leaves [emit]; nothing is printed.
    This is what [emit('constructor')] does on a registry that was just
    created. *)
Theorem emit_inherited_raises `{Engine} `{Wording} :
  (forall event_name args w,
     events w !! event_name = None -> inherited event_name = true ->
     Events.check event_name w = true /\
     Events.emit event_name args w = (Throw (TypeError EventExecute), w)) /\
  (let w := Events.constructor Demo.empty in
   events w !! js "constructor" = None /\
   Events.emit (js "constructor") [] w = (Throw (TypeError EventExecute), w) /\
   console (Events.emit (js "constructor") [] w).2 = []).
Proof.
  split.
  - intros event_name args w Hb Hi.
    unfold Events.check, Events.emit, Events.read. by rewrite Hb, Hi.
  - cbv zeta. split; [by_evaluation|]. split; by_evaluation.
Qed.

(** ** CommandManager.add *)

Lemma commands_read_stored command w c :
  commands w !! command = Some c -> CommandManager.read command w = Stored c.
Proof. intros Hc. unfold CommandManager.read. by rewrite Hc. Qed.

(** Reading a name the table does not hold, while [Object.prototype] is
    the prototype of the table. *)
Lemma commands_read_plain command w :
  commands w !! command = None -> commands_proto w = None ->
  CommandManager.read command w = if inherited command then Foreign else Missing.
Proof. intros Hc Hp. unfold CommandManager.read. by rewrite Hc, Hp. Qed.

Lemma getter_only_other (k : jsstring) (w : World) :
  k ∉ [js "name"; js "description"] -> CommandManager.getter_only k w = false.
Proof.
  intros Hk. unfold CommandManager.getter_only.
  rewrite (bool_decide_false (k ∈ _)) by done. apply andb_false_r.
Qed.

Lemma getter_only_plain (k : jsstring) (w : World) :
  commands_proto w = None -> CommandManager.getter_only k w = false.
Proof.
  intros Hp. unfold CommandManager.getter_only. rewrite Hp.
  rewrite (bool_decide_false (None ≠ None)) by (by intros []).
  by rewrite andb_false_r.
Qed.

Lemma getter_only_held (k : jsstring) (w : World) :
  is_Some (commands w !! k) -> CommandManager.getter_only k w = false.
Proof.
  intros [c Hc]. unfold CommandManager.getter_only. rewrite Hc.
  by rewrite bool_decide_false.
Qed.

Lemma write_stores `{Wording} (k : jsstring) (command : Command) (w : World) :
  k ≠ js "__proto__" \/ is_Some (commands w !! k) ->
  CommandManager.getter_only k w = false ->
  CommandManager.write k command w = (Return JUndefined, set_commands <[k := command]> w).
Proof.
  intros Hk Hg. unfold CommandManager.write. rewrite Hg.
  destruct Hk as [Hk|[c Hc]].
  - rewrite (bool_decide_false (k = _)) by done. by rewrite andb_false_r.
  - rewrite Hc. by rewrite bool_decide_false.
Qed.

Lemma write_proto `{Wording} (command : Command) (w : World) :
  commands w !! js "__proto__" = None ->
  CommandManager.write (js "__proto__") command w
  = (Return JUndefined, set_commands_proto (Some command) w).
Proof.
  intros Hc. unfold CommandManager.write. rewrite Hc.
  by rewrite !bool_decide_true.
Qed.

Lemma add_named `{Wording} command n w :
  name command = Some n ->
  CommandManager.add command w = CommandManager.write n command (logger.debug (LogText n) w).
Proof. intros Hn. unfold CommandManager.add. by rewrite Hn. Qed.

(** [add] of a Command named [n] where the assignment defines or
    overwrites the own property [n]. *)
Lemma add_stores `{Wording} command n w :
  name command = Some n ->
  n ≠ js "__proto__" \/ is_Some (commands w !! n) ->
  CommandManager.getter_only n w = false ->
  CommandManager.add command w =
    (Return JUndefined, set_commands <[n := command]> (logger.debug (LogText n) w)).
Proof.
  intros Hn Hk Hg. rewrite (add_named _ n) by done. by apply write_stores.
Qed.

(** Two [add]s under a name other than [__proto__], on a table that has
    [Object.prototype] as its prototype: the last write wins. *)
Lemma add_twice `{Wording} first second n w :
  name first = Some n -> name second = Some n ->
  n ≠ js "__proto__" -> commands_proto w = None ->
  let w' := (CommandManager.add second (CommandManager.add first w).2).2 in
  commands w' !! n = Some second /\
  (forall k, k ≠ n -> commands w' !! k = commands w !! k) /\
  commands w' = commands (CommandManager.add second w).2.
Proof.
  intros H1 H2 Hn Hp w'. subst w'.
  rewrite (add_stores first n) by (auto using getter_only_plain).
  rewrite !(add_stores second n) by (auto using getter_only_plain).
  simpl. rewrite insert_insert_eq. split; [|split].
  - by rewrite lookup_insert_eq.
  - intros k Hk. by rewrite lookup_insert_ne.
  - done.
Qed.

(** C6, on the code.  [add] of a Command named [__proto__], on a table
    that does not hold that name, returns normally and stores nothing:
    the own properties of the table are what they were, and the Command
    has become the prototype of the table.  From then on the table
    answers for the names that the Command and its class define: on the
    example, [!execute], which was ignored before, is taken for a
    command, and the message gets the [TypeError] as a reply; and an
    [add] of a Command named [name] raises a [TypeError] and stores
    nothing either. *)
Theorem add_proto_stores_nothing `{Wording} :
  (forall command w,
     name command = Some (js "__proto__") ->
     commands w !! js "__proto__" = None ->
     CommandManager.add command w =
       (Return JUndefined,
        set_commands_proto (Some command) (logger.debug (LogText (js "__proto__")) w)) /\
     commands (CommandManager.add command w).2 = commands w /\
     commands (CommandManager.add command w).2 !! js "__proto__" = None) /\
  (let w := (CommandManager.add (H0 := Demo.v8) Demo.proto Demo.world).2 in
   let message := Demo.said (js "!execute") in
   name Demo.proto = Some (js "__proto__") /\
   commands w = commands Demo.world /\
   commands w !! js "__proto__" = None /\
   commands_proto w = Some Demo.proto /\
   CommandManager.parse (H := Demo.engine) (H0 := Demo.v8) message Demo.world
     = (Return JUndefined, Demo.world) /\
   outbox (CommandManager.parse (H := Demo.engine) (H0 := Demo.v8) message w).2
     = [(message, js "TypeError: this.commands[command].execute is not a function")] /\
   let named_name :=
     {| name := Some (js "name"); description := js "Named name."; action := 0 |} in
   (CommandManager.add (H0 := Demo.v8) named_name w).1
     = Throw (TypeError (H := Demo.v8) (GetterOnly (js "name"))) /\
   commands (CommandManager.add (H0 := Demo.v8) named_name w).2 = commands Demo.world).
Proof.
  split.
  - intros command w Hn Hc. rewrite (add_named _ (js "__proto__")) by done.
    rewrite write_proto by done. by split.
  - cbv zeta. do 7 (split; [by_evaluation|]). by_evaluation.
Qed.

(** ** CommandManager.parse *)

(** [resolve] reads the prefix and the command table, nothing else. *)
Lemma resolve_ext message w1 w2 :
  prefix w1 = prefix w2 -> commands w1 = commands w2 ->
  commands_proto w1 = commands_proto w2 ->
  CommandManager.resolve message w1 = CommandManager.resolve message w2.
Proof.
  intros Hp Hc Hproto. unfold CommandManager.resolve, CommandManager.read.
  by rewrite Hp, Hc, Hproto.
Qed.

Lemma parse_of_resolve `{Engine} `{Wording} message w command c args :
  CommandManager.resolve message w = Some (command, c, args) ->
  CommandManager.parse message w = CommandManager.try_execute c command message args w.
Proof.
  unfold CommandManager.parse, CommandManager.resolve.
  destruct (negb _ || _); [done|].
  destruct (CommandManager.tokens _ _) as [|command' args']; [done|].
  destruct (CommandManager.read command' w); [done| |done].
  by intros [= -> -> ->].
Qed.

Lemma parse_resolved `{Engine} `{Wording} message w command args c :
  JsString.startsWith (content message) (prefix w) = true ->
  bot (author message) = false ->
  CommandManager.tokens (prefix w) (content message) = command :: args ->
  commands w !! command = Some c ->
  CommandManager.parse message w = CommandManager.try_execute c command message args w.
Proof.
  intros Hs Hb Ht Hc. unfold CommandManager.parse.
  by rewrite Hs, Hb, Ht, (commands_read_stored _ _ c).
Qed.

Lemma parse_foreign `{Engine} `{Wording} message w command args :
  JsString.startsWith (content message) (prefix w) = true ->
  bot (author message) = false ->
  CommandManager.tokens (prefix w) (content message) = command :: args ->
  CommandManager.read command w = Foreign ->
  CommandManager.parse message w = CommandManager.try_foreign command message w.
Proof.
  intros Hs Hb Ht Hc. unfold CommandManager.parse. by rewrite Hs, Hb, Ht, Hc.
Qed.

(** A message that does not start with the prefix, or comes from a bot,
    or whose first token is missing or reads as [undefined] in the table,
    makes [parse] return normally with the world exactly as it was. *)
Lemma parse_ignored `{Engine} `{Wording} (message : Message) (w : World) :
  JsString.startsWith (content message) (prefix w) = false \/
  bot (author message) = true \/
  match CommandManager.tokens (prefix w) (content message) with
  | [] => True
  | command :: _ => CommandManager.read command w = Missing
  end ->
  CommandManager.parse message w = (Return JUndefined, w).
Proof.
  unfold CommandManager.parse. intros [Hs|[Hb|Ht]].
  - by rewrite Hs.
  - by rewrite Hb, orb_true_r.
  - destruct (negb _ || _); [done|].
    destruct (CommandManager.tokens _ _) as [|command args]; [done|].
    by rewrite Ht.
Qed.

(** C8, on the code.  A first token that names no registered Command but
    a property of [Object.prototype] does not read as [undefined] in the
    table: [parse] goes on as for a command.  It prints the line
    [Executing], the call of the method [execute] raises a [TypeError],
    which is caught, printed and sent as a reply to the message.  This is
    what the message [!constructor] does on the example. *)
Theorem parse_inherited_name `{Engine} `{Wording} :
  (forall message w command args,
     JsString.startsWith (content message) (prefix w) = true ->
     bot (author message) = false ->
     CommandManager.tokens (prefix w) (content message) = command :: args ->
     commands w !! command = None ->
     commands_proto w = None ->
     inherited command = true ->
     exists text,
       toString (TypeError CommandExecute) = Ok text /\
       CommandManager.parse message w =
         (Return JUndefined,
          reply message text
            (logger.error (LogThrown (TypeError CommandExecute))
               (logger.log (LogText (js "[COMMANDS] Executing: " ++ command)) w)))) /\
  (let message := Demo.said (js "!constructor") in
   let w' := (CommandManager.parse (H := Demo.engine) (H0 := Demo.v8) message Demo.world).2 in
   commands Demo.world !! js "constructor" = None /\
   CommandManager.tokens (prefix Demo.world) (content message) = [js "constructor"] /\
   console w' = console Demo.world ++
     [(LLog, LogText (js "[COMMANDS] Executing: constructor"));
      (LError, LogThrown (TypeError (H := Demo.v8) CommandExecute))] /\
   outbox w' =
     [(message, js "TypeError: this.commands[command].execute is not a function")]).
Proof.
  split.
  - intros message w command args Hs Hb Ht Hc Hp Hi.
    destruct (toString_ErrorObject (js "TypeError") (message_of CommandExecute))
      as [text Htext].
    change (toString (TypeError CommandExecute) = Ok text) in Htext.
    exists text. split; [exact Htext|].
    rewrite (parse_foreign _ _ command args) by (by rewrite ?commands_read_plain, ?Hi).
    unfold CommandManager.try_foreign, CommandManager.handle.
    by rewrite Htext.
  - cbv zeta. do 3 (split; [by_evaluation|]). by_evaluation.
Qed.

Lemma tokens_prefixed (pfx rest : jsstring) :
  CommandManager.tokens pfx (pfx ++ rest) = JsString.split_spaces (JsString.trim rest).
Proof. unfold CommandManager.tokens. by rewrite slice_app. Qed.

(** The empty name is found in no prototype. *)
Lemma read_empty_name (w : World) :
  CommandManager.read [] w =
  match commands w !! [] with Some c => Stored c | None => Missing end.
Proof.
  unfold CommandManager.read. destruct (commands w !! []); [done|].
  by destruct (commands_proto w).
Qed.

(** C9. [add] stores a Command whose name is the empty string, under the
    empty string.  For a human message that is the prefix followed by
    whitespace only (or by nothing), the tokens are the empty string alone:
    [parse] runs the Command stored under the empty name, with no
    argument, when there is one, and changes nothing otherwise. *)
Theorem empty_command_name `{Engine} `{Wording} :
  (forall command w,
     name command = Some [] ->
     (CommandManager.add command w).1 = Return JUndefined /\
     commands (CommandManager.add command w).2 !! [] = Some command) /\
  (forall message w ws,
     content message = prefix w ++ ws ->
     forallb JsString.is_whitespace ws = true ->
     bot (author message) = false ->
     CommandManager.tokens (prefix w) (content message) = [[]] /\
     CommandManager.parse message w =
       match commands w !! [] with
       | Some c => CommandManager.try_execute c [] message [] w
       | None => (Return JUndefined, w)
       end).
Proof.
  split.
  - intros command w Hn. rewrite (add_stores _ []); [| done | left; by_decision |].
    + simpl. by rewrite lookup_insert_eq.
    + apply getter_only_other. by_decision.
  - intros message w ws Hc Hws Hb.
    assert (CommandManager.tokens (prefix w) (content message) = [[]]) as Ht.
    { rewrite Hc, tokens_prefixed, trim_whitespace by done. reflexivity. }
    split; [done|].
    unfold CommandManager.parse. rewrite Ht, Hb, Hc, startsWith_app. simpl.
    rewrite read_empty_name. by destruct (commands w !! []).
Qed.

Lemma empty_command_name_witness :
  let w := (CommandManager.add Demo.unnamed Demo.world).2 in
  let message := Demo.said (js "! " ++ [9%N; 160%N; 10%N]) in
  name Demo.unnamed = Some [] /\
  commands w !! [] = Some Demo.unnamed /\
  content message = prefix w ++ (js " " ++ [9%N; 160%N; 10%N]) /\
  CommandManager.tokens (prefix w) (content message) = [[]] /\
  outbox (CommandManager.parse (H := Demo.engine) message w).2 = [(message, [])] /\
  CommandManager.parse (H := Demo.engine) (Demo.said (js "!")) Demo.world
    = (Return JUndefined, Demo.world).
Proof.
  intros w message.
  destruct (empty_command_name (H := Demo.engine)) as [Hadd Hparse].
  pose proof (proj2 (Hadd Demo.unnamed Demo.world eq_refl)) as Hl.
  destruct (Hparse message w (js " " ++ [9%N; 160%N; 10%N]) eq_refl eq_refl eq_refl)
    as [Ht Hp].
  destruct (Hparse (Demo.said (js "!")) Demo.world [] eq_refl eq_refl eq_refl)
    as [_ Hp'].
  split; [reflexivity|]. split; [exact Hl|]. split; [reflexivity|].
  split; [exact Ht|]. split.
  - rewrite Hp. unfold w. rewrite Hl. reflexivity.
  - rewrite Hp'. reflexivity.
Defined.

Lemma In_trimStart (c : N) (s : jsstring) : In c (JsString.trimStart s) -> In c s.
Proof.
  induction s as [|a s IH]; simpl; [done|].
  destruct (JsString.is_whitespace a); [auto|done].
Qed.

Lemma In_trim (c : N) (s : jsstring) : In c (JsString.trim s) -> In c s.
Proof.
  unfold JsString.trim, JsString.trimEnd. intros Hin.
  apply in_rev in Hin. apply In_trimStart in Hin. apply in_rev in Hin.
  by apply In_trimStart.
Qed.

(** C5, as the code has it.  For a human message that starts with the
    prefix, [parse] drops the prefix, trims, and splits on runs of the
    space character U+0020 (no token holds a space, and a text without a
    space is one token whatever other whitespace it holds); when the first
    token names a registered Command, [parse] prints the line [Executing]
    and runs that Command's action once on the registry, the message and
    the remaining tokens.  It returns when the action returns; when the
    action raises, the [catch] block prints what was raised and sends its
    [toString()] as a reply, and [parse] returns, unless that value has no
    [toString], as [null] and [undefined], in which case the [TypeError]
    leaves [parse].  With any prefix, [<prefix>echo hello world] gives the
    arguments [hello] and [world], and [<prefix>ping] gives none. *)
Theorem parse_dispatches `{Engine} `{Wording} :
  (forall message w command args c,
     JsString.startsWith (content message) (prefix w) = true ->
     bot (author message) = false ->
     CommandManager.tokens (prefix w) (content message) = command :: args ->
     commands w !! command = Some c ->
     CommandManager.parse message w =
       let '(r, w') :=
         call (action c) (JEvents :: JMessage message :: (JStr <$> args))
           (logger.log (LogText (js "[COMMANDS] Executing: " ++ command)) w) in
       match r with
       | Return _ => (Return JUndefined, w')
       | Throw error =>
           match toString error with
           | Ok text =>
               (Return JUndefined,
                reply message text (logger.error (LogThrown error) w'))
           | Raised e => (Throw e, logger.error (LogThrown error) w')
           end
       end) /\
  (forall pfx text t,
     In t (CommandManager.tokens pfx text) -> ~ In 32%N t) /\
  (forall pfx rest,
     ~ In 32%N rest ->
     CommandManager.tokens pfx (pfx ++ rest) = [JsString.trim rest]) /\
  (forall pfx,
     CommandManager.tokens pfx (pfx ++ js "echo hello world")
       = [js "echo"; js "hello"; js "world"]) /\
  (forall pfx, CommandManager.tokens pfx (pfx ++ js "ping") = [js "ping"]).
Proof.
  assert (forall s : jsstring, ~ In 32%N s ->
            forallb (fun c => negb (JsString.is_space c)) s = true) as Hno.
  { intros s Hs. apply forallb_forall. intros c Hc. apply negb_true_iff.
    unfold JsString.is_space. apply N.eqb_neq. intros ->. by apply Hs. }
  repeat split.
  - intros message w command args c Hs Hb Ht Hc.
    rewrite (parse_resolved _ _ command args c) by done.
    unfold CommandManager.try_execute, Command.execute, CommandManager.handle.
    by destruct (call _ _ _) as [[v|error] w'].
  - intros pfx text t Hin H32.
    apply (split_runs_tokens _ _ []) in Hin; [|done].
    rewrite forallb_forall in Hin. specialize (Hin _ H32).
    by vm_compute in Hin.
  - intros pfx rest Hrest. rewrite tokens_prefixed.
    unfold JsString.split_spaces. rewrite split_runs_no_sep; [done|].
    apply Hno. intros Hin. by apply Hrest, In_trim.
  - intros pfx. by rewrite tokens_prefixed.
  - intros pfx. by rewrite tokens_prefixed.
Qed.

Lemma parse_dispatches_witness :
  let message := Demo.said (js "!echo hello world") in
  JsString.startsWith (content message) (prefix Demo.world) = true /\
  bot (author message) = false /\
  CommandManager.tokens (prefix Demo.world) (content message)
    = [js "echo"; js "hello"; js "world"] /\
  commands Demo.world !! js "echo" = Some Demo.echo /\
  outbox (CommandManager.parse (H := Demo.engine) message Demo.world).2
    = [(message, js "hello|world|")] /\
  CommandManager.tokens (js "!") (content Demo.tabbed)
    = [js "echo"; js "hello" ++ [9%N] ++ js "world"].
Proof.
  intros message.
  destruct (parse_dispatches (H := Demo.engine)) as (Hrun & _ & Hone & Hecho & _).
  assert (commands Demo.world !! js "echo" = Some Demo.echo) as Hc
    by by_evaluation.
  split; [reflexivity|]. split; [reflexivity|].
  split; [exact (Hecho (js "!"))|]. split; [exact Hc|]. split.
  - rewrite (Hrun message Demo.world (js "echo") [js "hello"; js "world"] Demo.echo
               eq_refl eq_refl (Hecho (js "!")) Hc).
    reflexivity.
  - transitivity (js "echo" :: CommandManager.tokens (js "!")
                    (js "!" ++ (js "hello" ++ [9%N] ++ js "world"))).
    + reflexivity.
    + rewrite Hone; [reflexivity|]. vm_compute. intuition discriminate.
Defined.

(** C5, as the specification words it, fails: [!echo hello<TAB>world] has
    the whitespace tokens [echo], [hello], [world], but the action of
    [echo] is run with the single argument [hello<TAB>world]. *)
Lemma parse_whitespace_counterexample :
  ~ dispatches_on_whitespace_tokens (H := Demo.engine) Demo.tabbed Demo.world.
Proof.
  intros Hclaim.
  specialize (Hclaim (js "echo") [js "hello"; js "world"] Demo.echo).
  assert (outbox (CommandManager.parse (H := Demo.engine) Demo.tabbed Demo.world).2
          = outbox (CommandManager.try_execute (H := Demo.engine) Demo.echo (js "echo")
                      Demo.tabbed [js "hello"; js "world"] Demo.world).2) as Hout.
  { rewrite Hclaim; [done| | | |]; vm_compute; reflexivity. }
  vm_compute in Hout. discriminate Hout.
Qed.

(** When the action of the resolved Command raises a value that has a
    method [toString], [parse] returns normally, with one more line on
    the console and one more reply; table, prefix, events and objects are
    as the action left them. *)
Lemma parse_catches `{Engine} `{Wording} (message : Message) (w : World)
    (command : jsstring) (args : list jsstring) (c : Command)
    (error : Thrown) (text : jsstring) (w' : World) :
  JsString.startsWith (content message) (prefix w) = true ->
  bot (author message) = false ->
  CommandManager.tokens (prefix w) (content message) = command :: args ->
  commands w !! command = Some c ->
  call (action c) (JEvents :: JMessage message :: (JStr <$> args))
    (logger.log (LogText (js "[COMMANDS] Executing: " ++ command)) w) = (Throw error, w') ->
  toString error = Ok text ->
  CommandManager.parse message w =
    (Return JUndefined, reply message text (logger.error (LogThrown error) w')).
Proof.
  intros Hs Hb Ht Hc Hrun Htext.
  rewrite (parse_resolved _ _ command args c) by done.
  unfold CommandManager.try_execute, Command.execute, CommandManager.handle.
  by rewrite Hrun, Htext.
Qed.

(** C2, on the code.  When the action of the resolved Command raises
    [null] or [undefined], the [catch] block prints the value and then
    fails itself, on [error.toString()]: a [TypeError] leaves [parse], and
    no reply is sent.  This is what [!null] does on the example, where the
    action of the command [null] runs [throw null]. *)
Theorem parse_nullish_escapes `{Engine} `{Wording} :
  (forall message w command args c error w',
     JsString.startsWith (content message) (prefix w) = true ->
     bot (author message) = false ->
     CommandManager.tokens (prefix w) (content message) = command :: args ->
     commands w !! command = Some c ->
     call (action c) (JEvents :: JMessage message :: (JStr <$> args))
       (logger.log (LogText (js "[COMMANDS] Executing: " ++ command)) w)
       = (Throw error, w') ->
     error = ThrownNull \/ error = ThrownUndefined ->
     exists e,
       CommandManager.parse message w = (Throw e, logger.error (LogThrown error) w') /\
       outbox (CommandManager.parse message w).2 = outbox w') /\
  (let w := (CommandManager.add (H0 := Demo.v8) Demo.null_thrower Demo.world).2 in
   let message := Demo.said (js "!null") in
   commands w !! js "null" = Some Demo.null_thrower /\
   CommandManager.parse (H := Demo.engine) (H0 := Demo.v8) message w =
     (Throw (TypeError (H := Demo.v8) ToStringOfNull),
      logger.error (LogThrown ThrownNull)
        (logger.log (LogText (js "[COMMANDS] Executing: null")) w)) /\
   outbox (CommandManager.parse (H := Demo.engine) (H0 := Demo.v8) message w).2 = []).
Proof.
  split.
  - intros message w command args c error w' Hs Hb Ht Hc Hrun Herr.
    rewrite (parse_resolved _ _ command args c) by done.
    unfold CommandManager.try_execute, Command.execute, CommandManager.handle.
    rewrite Hrun. destruct Herr as [-> | ->]; simpl; eauto.
  - cbv zeta. do 2 (split; [by_evaluation|]). by_evaluation.
Qed.

(** ** System *)

Lemma fields_set_field this k v w :
  fields this (set_field this k v w) = <[k := v]> (fields this w).
Proof. unfold fields, set_field. simpl. by rewrite lookup_insert_eq. Qed.

Lemma heap_set_field_ne this l k v w :
  l ≠ this -> heap (set_field this k v w) !! l = heap w !! l.
Proof. intros Hne. unfold set_field. simpl. by rewrite lookup_insert_ne. Qed.

(** The object the constructor has filled in when it reaches the test of
    the flag. *)
Lemma constructor_unfold `{Engine} `{Wording} this name serialize w :
  System.constructor this name serialize w =
  let built :=
    set_field this (js "name") (JStr name)
      (set_field this (js "events") JEvents
         (logger.log (LogText (js "[SYSTEM] Creating " ++ name ++ js " System.")) w)) in
  if serialize then
    match Events.emit (js "serialize::register") [JStr name; JRef this] built with
    | (Return _, w) => (Return JUndefined, w)
    | (Throw e, w) => (Throw e, w)
    end
  else (Return JUndefined, built).
Proof. reflexivity. Qed.

(** C7. With the flag [false] the constructor prints its line, sets the
    two fields and does nothing else: no handler runs and no lookup miss
    is reported, whatever is bound to [serialize::register].  With the
    flag [true] it goes on with one [emit] of [serialize::register] on the
    name and the object itself: when a handler is bound, that handler is
    called once on these two arguments; when none is, the single miss is
    reported. *)
Theorem constructor_serialize_flag `{Engine} `{Wording} (this : loc) (name : jsstring)
    (w : World) :
  let built :=
    set_field this (js "name") (JStr name)
      (set_field this (js "events") JEvents
         (logger.log (LogText (js "[SYSTEM] Creating " ++ name ++ js " System.")) w)) in
  System.constructor this name false w = (Return JUndefined, built) /\
  System.constructor this name true w =
    (let '(r, w') := Events.emit (js "serialize::register") [JStr name; JRef this] built in
     (match r with Return _ => Return JUndefined | Throw e => Throw e end, w')) /\
  (forall handler,
     events w !! js "serialize::register" = Some handler ->
     System.constructor this name true w =
       let '(r, w') := call (_action handler) [JStr name; JRef this] built in
       (match r with Return _ => Return JUndefined | Throw e => Throw e end, w')) /\
  (events w !! js "serialize::register" = None ->
     System.constructor this name true w =
       (Return JUndefined,
        logger.error (LogText (js "No event named: serialize::register was found.")) built)).
Proof.
  intros built. split; [reflexivity|]. split; [|split].
  - rewrite constructor_unfold. fold built. simpl.
    by destruct (Events.emit _ _ built) as [[v|e] w'].
  - intros handler Hb. rewrite constructor_unfold. fold built. cbv zeta.
    rewrite (emit_bound _ _ _ handler) by exact Hb.
    by destruct (call _ _ built) as [[v|e] w'].
  - intros Hb. rewrite constructor_unfold. fold built. cbv zeta.
    rewrite emit_missing; [done|].
    apply check_false. split; [exact Hb|by_evaluation].
Qed.

Lemma constructor_serialize_flag_witness :
  events Demo.empty !! js "serialize::register" = None /\
  console (System.constructor (H := Demo.engine) 1%positive (js "Example") false
             Demo.with_serializer).2
    = [(LLog, LogText (js "[SYSTEM] Creating Example System."))] /\
  console (System.constructor (H := Demo.engine) 1%positive (js "Example") true
             Demo.empty).2
    = [(LLog, LogText (js "[SYSTEM] Creating Example System."));
       (LError, LogText (js "No event named: serialize::register was found."))] /\
  events Demo.with_serializer !! js "serialize::register"
    = Some {| _name := js "serialize::register"; _action := 4 |} /\
  console (System.constructor (H := Demo.engine) 1%positive (js "Example") true
             Demo.with_serializer).2
    = [(LLog, LogText (js "[SYSTEM] Creating Example System."));
       (LDebug, LogText (js "Example"))].
Proof.
  assert (events Demo.empty !! js "serialize::register" = None) as Hnone
    by by_evaluation.
  assert (events Demo.with_serializer !! js "serialize::register"
          = Some {| _name := js "serialize::register"; _action := 4 |}) as Hsome
    by by_evaluation.
  destruct (constructor_serialize_flag (H := Demo.engine) 1%positive (js "Example")
              Demo.with_serializer) as (Hoff & _ & Hbound & _).
  destruct (constructor_serialize_flag (H := Demo.engine) 1%positive (js "Example")
              Demo.empty) as (_ & _ & _ & Hmiss).
  split; [exact Hnone|]. split; [|split; [|split]].
  - rewrite Hoff. reflexivity.
  - rewrite (Hmiss Hnone). reflexivity.
  - exact Hsome.
  - rewrite (Hbound _ Hsome). reflexivity.
Defined.

Lemma serialize_lookup this w k :
  k ≠ js "event_manager" -> System.serialize this w !! k = fields this w !! k.
Proof. intros Hk. unfold System.serialize. by rewrite lookup_delete_ne. Qed.

(** C1, on the code.  [serialize] deletes the key [event_manager], but the
    constructor stores the registry under [events]: the snapshot of a
    System that was just built (here without serialization) still holds
    the reference to the registry under [events].  On the System with the
    fields [name] and [state = 3] the snapshot is the whole object, not
    [{state: 3}]. *)
Theorem serialize_keeps_registry `{Engine} `{Wording} :
  (forall this name w,
     System.serialize this (System.constructor this name false w).2 !! js "events"
       = Some JEvents) /\
  System.serialize 1%positive Demo.with_system
    = <[js "events" := JEvents]>
        (<[js "name" := JStr (js "Example")]> {[js "state" := JNum 3]}) /\
  System.serialize 1%positive Demo.with_system ≠ {[js "state" := JNum 3]}.
Proof.
  split; [|split].
  - intros this name w. rewrite serialize_lookup by (vm_compute; discriminate).
    rewrite constructor_unfold. simpl. rewrite !fields_set_field.
    rewrite lookup_insert_ne by (vm_compute; discriminate).
    by rewrite lookup_insert_eq.
  - apply map_eq. intros k. unfold System.serialize, Demo.with_system.
    rewrite constructor_unfold. simpl. rewrite !fields_set_field.
    unfold fields. simpl. rewrite lookup_empty. simpl.
    rewrite delete_id.
    + destruct (decide (k = js "events")) as [->|Hev].
      { rewrite lookup_insert_eq.
        rewrite !lookup_insert_ne by (vm_compute; discriminate).
        by rewrite lookup_insert_eq. }
      rewrite (lookup_insert_ne _ (js "events")) by done.
      destruct (decide (k = js "name")) as [->|Hn].
      { rewrite lookup_insert_eq, lookup_insert_ne by (vm_compute; discriminate).
        by rewrite lookup_insert_eq. }
      rewrite (lookup_insert_ne _ (js "name")) by done.
      destruct (decide (k = js "state")) as [->|Hst].
      { by rewrite lookup_insert_eq, lookup_singleton_eq. }
      rewrite !lookup_insert_ne, lookup_singleton_ne by done.
      by rewrite lookup_empty.
    + rewrite !lookup_insert_ne by (vm_compute; discriminate).
      apply lookup_empty.
  - intros Heq. apply (f_equal (fun o : Obj => o !! js "events")) in Heq.
    vm_compute in Heq. discriminate Heq.
Qed.

Lemma get_Some (obj : Obj) (k : jsstring) (v : Any) : obj !! k = Some v -> get obj k = v.
Proof. intros Hk. unfold get. by rewrite Hk. Qed.

Lemma elem_of_Object_keys (obj : Obj) (k : jsstring) : k ∈ Object_keys obj <-> is_Some (obj !! k).
Proof.
  unfold Object_keys. rewrite list_elem_of_fmap. split.
  - intros [[k' v] [-> Hin]]. apply elem_of_map_to_list in Hin. by exists v.
  - intros [v Hv]. exists (k, v). split; [done|]. by apply elem_of_map_to_list.
Qed.

Lemma assign_other this k v w :
  k ≠ js "__proto__" -> assign this k v w = Some (set_field this k v w).
Proof. intros Hk. unfold assign. by rewrite decide_False. Qed.

Lemma assign_held this k v w :
  is_Some (fields this w !! k) -> assign this k v w = Some (set_field this k v w).
Proof.
  intros [v' Hv]. unfold assign. case_decide; [|done].
  rewrite bool_decide_true; [done|]. by rewrite Hv.
Qed.

(** The setter of [__proto__] ignores a primitive value. *)
Lemma assign_proto_primitive this v w :
  fields this w !! js "__proto__" = None -> primitive v = true ->
  assign this (js "__proto__") v w = Some w.
Proof.
  intros Hf Hv. unfold assign. rewrite decide_True by done.
  rewrite bool_decide_false by (by rewrite Hf; intros []).
  by rewrite Hv.
Qed.

(** The loop of [deserialize] over a list of keys without [__proto__]. *)
Lemma assign_keys_plain (this : loc) (obj : Obj) (ks : list jsstring) (w : World) :
  js "__proto__" ∉ ks ->
  foldl (fun r k => w ← r; assign this k (get obj k) w) (Some w) ks
  = Some (foldl (fun w k => set_field this k (get obj k) w) w ks).
Proof.
  revert w. induction ks as [|a ks IH]; intros w Hks; [done|].
  apply not_elem_of_cons in Hks as [Ha Hks].
  change (foldl ?f ?r (a :: ks)) with (foldl f (f r a) ks). simpl.
  rewrite assign_other by done. by apply IH.
Qed.

Lemma assign_keys_fields (this : loc) (obj : Obj) (ks : list jsstring) (w : World)
    (k : jsstring) :
  fields this (foldl (fun w k => set_field this k (get obj k) w) w ks) !! k =
  if decide (k ∈ ks) then Some (get obj k) else fields this w !! k.
Proof.
  revert w. induction ks as [|a ks IH]; intros w.
  - rewrite decide_False; [done|]. by intros ?%elem_of_nil.
  - change (foldl ?f w (a :: ks)) with (foldl f (f w a) ks).
    rewrite IH, fields_set_field.
    destruct (decide (k ∈ ks)) as [Hin|Hnin].
    + rewrite decide_True; [done|]. by right.
    + destruct (decide (a = k)) as [->|Hne].
      * rewrite lookup_insert_eq. rewrite decide_True; [done|]. by left.
      * rewrite lookup_insert_ne by done. rewrite decide_False; [done|].
        intros [?|?]%elem_of_cons; congruence.
Qed.

(** The loop touches the object at [this] and nothing else. *)
Lemma assign_keys_frame (this : loc) (obj : Obj) (ks : list jsstring) (w : World) :
  let w' := foldl (fun w k => set_field this k (get obj k) w) w ks in
  (forall l, l ≠ this -> heap w' !! l = heap w !! l) /\
  events w' = events w /\ commands w' = commands w /\ prefix w' = prefix w /\
  console w' = console w /\ outbox w' = outbox w.
Proof.
  revert w. induction ks as [|a ks IH]; intros w; simpl; [done|].
  destruct (IH (set_field this a (get obj a) w)) as (Hh & He & Hc & Hp & Hl & Ho).
  split; [|done].
  intros l Hne. rewrite Hh by done. by apply heap_set_field_ne.
Qed.

Lemma deserialize_plain (this : loc) (obj : Obj) (w : World) :
  obj !! js "__proto__" = None ->
  System.deserialize this obj w
  = Some (foldl (fun w k => set_field this k (get obj k) w) w (Object_keys obj)).
Proof.
  intros Hp. unfold System.deserialize. apply assign_keys_plain.
  intros [v Hv]%elem_of_Object_keys. congruence.
Qed.

(** For a snapshot without the key [__proto__]: after [deserialize(obj)]
    a field of the receiver holds the value [obj] gives it when its name
    is a key of [obj], and the value it had otherwise; no field
    disappears, and nothing else in the world changes. *)
Lemma deserialize_assigns (this : loc) (obj : Obj) (w : World) :
  obj !! js "__proto__" = None ->
  exists w',
    System.deserialize this obj w = Some w' /\
    (forall k, fields this w' !! k =
       match obj !! k with
       | Some v => Some v
       | None => fields this w !! k
       end) /\
    (forall k, is_Some (fields this w !! k) -> is_Some (fields this w' !! k)) /\
    (forall l, l ≠ this -> heap w' !! l = heap w !! l) /\
    events w' = events w /\ commands w' = commands w /\ prefix w' = prefix w /\
    console w' = console w /\ outbox w' = outbox w.
Proof.
  intros Hp. eexists. split; [by apply deserialize_plain|].
  set (w' := foldl _ w _).
  assert (forall k, fields this w' !! k =
            match obj !! k with Some v => Some v | None => fields this w !! k end) as Hk.
  { intros k. unfold w'. rewrite assign_keys_fields.
    destruct (obj !! k) as [v|] eqn:Hv.
    - rewrite decide_True by (apply elem_of_Object_keys; by exists v).
      by rewrite (get_Some _ _ v).
    - rewrite decide_False; [done|].
      intros [v Hv']%elem_of_Object_keys. congruence. }
  split; [exact Hk|]. split.
  - intros k Hs. rewrite Hk. by destruct (obj !! k).
  - apply assign_keys_frame.
Qed.

(** C10, on the code.  A key [__proto__] of the snapshot is not assigned
    as the others are: on a System that has no own property of that name
    the assignment runs the setter inherited from [Object.prototype].
    With a primitive value under that key nothing happens at all; on the
    example, the snapshot [{"state": 7, "__proto__": 1}] (as [JSON.parse]
    gives it) sets the field [state], and the System has no field
    [__proto__] afterwards. *)
Theorem deserialize_skips_proto :
  (forall this v w,
     fields this w !! js "__proto__" = None -> primitive v = true ->
     System.deserialize this {[js "__proto__" := v]} w = Some w) /\
  (let snapshot : Obj := <[js "__proto__" := JNum 1]> {[js "state" := JNum 7]} in
   let w' := set_field 1%positive (js "state") (JNum 7) Demo.with_system in
   snapshot !! js "__proto__" = Some (JNum 1) /\
   fields 1%positive Demo.with_system !! js "state" = Some (JNum 3) /\
   System.deserialize 1%positive snapshot Demo.with_system = Some w' /\
   fields 1%positive w' !! js "state" = Some (JNum 7) /\
   fields 1%positive w' !! js "__proto__" = None).
Proof.
  split.
  - intros this v w Hf Hv. unfold System.deserialize, Object_keys.
    rewrite map_to_list_singleton. simpl.
    rewrite (get_Some _ _ v) by apply lookup_singleton_eq.
    by apply assign_proto_primitive.
  - cbv zeta. do 4 (split; [by_evaluation|]). by_evaluation.
Qed.

(* ===================================================================== *)
(** * Further properties of the code *)
(* ===================================================================== *)

(** ** Events: several names, several registrations *)

Lemma on_events_lookup event_name action w (k : jsstring) :
  events (Events.on event_name action w) !! k =
  match events w !! k with
  | Some e => Some e
  | None =>
      if decide (k = event_name)
      then (if inherited event_name then None
            else Some {| _name := event_name; _action := action |})
      else None
  end.
Proof.
  destruct (on_cases event_name action w) as [[Hc ->]|[Hc ->]].
  - apply check_false in Hc as [Hb Hi]. simpl.
    destruct (decide (k = event_name)) as [->|Hne].
    + by rewrite lookup_insert_eq, Hb, Hi.
    + rewrite lookup_insert_ne by done. by destruct (events w !! k).
  - simpl. destruct (events w !! k) eqn:Hk; [done|].
    case_decide; [subst k|done].
    apply check_spec in Hc as [[e He]|Hi]; [congruence|]. by rewrite Hi.
Qed.

(** X1. Two handlers registered under two different names, neither of
    which read as anything before, do not interfere: an [emit] of either
    name runs the handler registered under that name, on the arguments
    given, and the two registrations print nothing. *)
Theorem emit_distinct_names `{Engine} `{Wording} (w : World) (a b : jsstring)
    (ha hb : Callable) (args : list Any) :
  a ≠ b -> Events.check a w = false -> Events.check b w = false ->
  let w' := Events.on b hb (Events.on a ha w) in
  Events.emit a args w' = call ha args w' /\
  Events.emit b args w' = call hb args w' /\
  console w' = console w.
Proof.
  intros Hab Hca Hcb w'.
  pose proof Hca as [Ha Hia]%check_false. pose proof Hcb as [Hb Hib]%check_false.
  assert (events w' !! a = Some {| _name := a; _action := ha |}) as Hla.
  { unfold w'. rewrite !on_events_lookup, Ha, Hia. by rewrite decide_True. }
  assert (events w' !! b = Some {| _name := b; _action := hb |}) as Hlb.
  { unfold w'. rewrite !on_events_lookup, Hb, Hib.
    rewrite (decide_False (P := b = a)) by done. by rewrite decide_True. }
  split; [by rewrite (emit_bound _ _ _ _ Hla)|].
  split; [by rewrite (emit_bound _ _ _ _ Hlb)|].
  unfold w'. rewrite (on_fresh b); [by rewrite on_fresh|].
  apply check_false. split; [|done].
  rewrite on_events_lookup, Hb. by rewrite decide_False.
Qed.

Lemma emit_distinct_names_witness :
  let w' := Events.on (js "pong") 3 (Events.on (js "ping") 2 Demo.world) in
  js "ping" ≠ js "pong" /\
  Events.check (js "ping") Demo.world = false /\
  Events.check (js "pong") Demo.world = false /\
  Events.emit (H := Demo.engine) (js "ping") [] w' = (Return (JNum 1), w') /\
  Events.emit (H := Demo.engine) (js "pong") [] w' = (Return (JNum 2), w').
Proof.
  intros w'.
  assert (js "ping" ≠ js "pong") as Hne by (vm_compute; discriminate).
  assert (Events.check (js "ping") Demo.world = false) as Ha by by_evaluation.
  assert (Events.check (js "pong") Demo.world = false) as Hb by by_evaluation.
  destruct (emit_distinct_names (H := Demo.engine) Demo.world (js "ping") (js "pong")
              2 3 [] Hne Ha Hb) as (Hp & Hq & _).
  split; [exact Hne|]. split; [exact Ha|]. split; [exact Hb|].
  split; [unfold w'; rewrite Hp; reflexivity|unfold w'; rewrite Hq; reflexivity].
Defined.

Lemma on_all_cons r regs w :
  on_all (r :: regs) w = on_all regs (Events.on r.1 r.2 w).
Proof. reflexivity. Qed.

(** X2. After any sequence of registrations, a name that was bound before
    keeps its handler; a name that read as [undefined] is bound to the
    action of the first registration made under it (and still reads as
    [undefined] when there is none), and [emit] then runs that first
    action; a name that no handler was bound to but that
    [Object.prototype] has is bound to nothing, whatever is registered
    under it, and an [emit] of it raises. *)
Theorem on_all_first_wins `{Engine} `{Wording} (regs : list (jsstring * Callable))
    (w : World) (event_name : jsstring) :
  events (on_all regs w) !! event_name =
    match events w !! event_name with
    | Some e => Some e
    | None =>
        if inherited event_name then None
        else (fun action => {| _name := event_name; _action := action |})
               <$> first_bound event_name regs
    end /\
  (forall action args,
     Events.check event_name w = false ->
     first_bound event_name regs = Some action ->
     Events.emit event_name args (on_all regs w) = call action args (on_all regs w)) /\
  (forall args,
     events w !! event_name = None -> inherited event_name = true ->
     Events.emit event_name args (on_all regs w)
       = (Throw (TypeError EventExecute), on_all regs w)).
Proof.
  assert (forall regs w,
            events (on_all regs w) !! event_name =
            match events w !! event_name with
            | Some e => Some e
            | None =>
                if inherited event_name then None
                else (fun action => {| _name := event_name; _action := action |})
                       <$> first_bound event_name regs
            end) as Hlookup.
  { clear regs w. induction regs as [|[n action] regs IH]; intros w.
    - simpl. destruct (events w !! event_name); [done|].
      by destruct (inherited event_name).
    - rewrite on_all_cons, IH, on_events_lookup. simpl.
      destruct (events w !! event_name); [done|].
      destruct (decide (event_name = n)) as [->|Hne].
      + rewrite decide_True by done. by destruct (inherited n).
      + by rewrite decide_False. }
  split; [apply Hlookup|]. split.
  - intros action args [Hfree Hi]%check_false Hfirst.
    apply (emit_bound _ _ _ {| _name := event_name; _action := action |}).
    by rewrite Hlookup, Hfree, Hi, Hfirst.
  - intros args Hfree Hi.
    unfold Events.emit, Events.read. by rewrite Hlookup, Hfree, Hi.
Qed.

Lemma on_all_first_wins_witness :
  let regs := [(js "ping", 2); (js "pong", 3); (js "ping", 3); (js "valueOf", 2)] in
  Events.check (js "ping") Demo.empty = false /\
  first_bound (js "ping") regs = Some 2 /\
  Events.emit (H := Demo.engine) (js "ping") [] (on_all regs Demo.empty)
    = (Return (JNum 1), on_all regs Demo.empty) /\
  events (on_all regs Demo.empty) !! js "valueOf" = None.
Proof.
  intros regs.
  destruct (on_all_first_wins (H := Demo.engine) regs Demo.empty (js "ping"))
    as (_ & Hemit & _).
  split; [by_evaluation|]. split; [reflexivity|]. split.
  - rewrite (Hemit 2 []); [reflexivity|by_evaluation|reflexivity].
  - rewrite (proj1 (on_all_first_wins (H := Demo.engine) regs Demo.empty (js "valueOf"))).
    by_evaluation.
Defined.

Lemma on_step_count event_name action w :
  exists warnings,
    console (Events.on event_name action w) = console w ++ warnings /\
    Forall (fun line => line.1 = LWarn) warnings /\
    size (events (Events.on event_name action w)) + List.length warnings
      = size (events w) + 1.
Proof.
  destruct (on_cases event_name action w) as [[Hc ->]|[Hc ->]].
  - apply check_false in Hc as [Hb _]. exists []. simpl.
    split; [by rewrite app_nil_r|]. split; [constructor|].
    rewrite map_size_insert_None by done. lia.
  - eexists [_]. simpl.
    split; [done|]. split; [by repeat constructor|done].
Qed.

(** X3. Every registration either adds one binding or prints one warning,
    and does nothing else to the console: after any sequence of
    registrations, the lines added are all warnings, and bindings plus
    added warnings count the registrations made. *)
Theorem on_all_accounting (regs : list (jsstring * Callable)) (w : World) :
  exists warnings,
    console (on_all regs w) = console w ++ warnings /\
    Forall (fun line => line.1 = LWarn) warnings /\
    size (events (on_all regs w)) + List.length warnings
      = size (events w) + List.length regs.
Proof.
  revert w. induction regs as [|[n action] regs IH]; intros w.
  - exists []. simpl. split; [by rewrite app_nil_r|]. split; [constructor|lia].
  - rewrite on_all_cons.
    destruct (on_step_count n action w) as (l1 & Hc1 & Hw1 & Hn1).
    destruct (IH (Events.on n action w)) as (l2 & Hc2 & Hw2 & Hn2).
    exists (l1 ++ l2). simpl in *.
    split; [by rewrite Hc2, Hc1, app_assoc|].
    split; [by apply Forall_app|].
    rewrite length_app. lia.
Qed.

(** ** Permissions *)

(** X4. [Permissions.register_events] makes its callback the answer to
    [permissions::check-user] when nobody answered before: [emit] then
    returns what the callback returns on the user given, and a second
    [register_events] does not replace it.  When the name was taken
    already, the call changes no binding and the earlier handler goes on
    answering. *)
Theorem register_events_binds `{Engine} `{Wording} (w : World) (callback other : Callable)
    (user : Any) :
  (events w !! js "permissions::check-user" = None ->
   let w' := Permissions.register_events callback w in
   Events.check (js "permissions::check-user") w' = true /\
   Events.emit (js "permissions::check-user") [user] w' = call callback [user] w' /\
   let w'' := Permissions.register_events other w' in
   events w'' = events w' /\
   Events.emit (js "permissions::check-user") [user] w'' = call callback [user] w'') /\
  (forall e,
     events w !! js "permissions::check-user" = Some e ->
     let w' := Permissions.register_events callback w in
     events w' = events w /\
     Events.emit (js "permissions::check-user") [user] w' = call (_action e) [user] w').
Proof.
  set (n := js "permissions::check-user").
  assert (inherited n = false) as Hi by by_evaluation.
  assert (forall w e a, events w !! n = Some e ->
            events (Events.on n a w) = events w /\
            Events.emit n [user] (Events.on n a w) = call (_action e) [user] (Events.on n a w))
    as Hkept.
  { intros w0 e a Hb. rewrite (on_bound _ _ e) by done. split; [done|].
    by apply emit_bound. }
  split.
  - intros Hfree w'.
    assert (events w' !! n = Some {| _name := n; _action := callback |}) as Hb.
    { unfold w', Permissions.register_events. fold n.
      rewrite on_events_lookup, Hfree, Hi. by rewrite decide_True. }
    split; [apply check_spec; left; by rewrite Hb|].
    split; [by rewrite (emit_bound _ _ _ _ Hb)|].
    intros w''. exact (Hkept w' _ other Hb).
  - intros e Hb w'. exact (Hkept w e callback Hb).
Qed.

Lemma register_events_binds_witness :
  let w' := Permissions.register_events 2 Demo.world in
  events Demo.world !! js "permissions::check-user" = None /\
  Events.emit (H := Demo.engine) (js "permissions::check-user") [JNull] w'
    = (Return (JNum 1), w') /\
  Events.emit (H := Demo.engine) (js "permissions::check-user") [JNull]
      (Permissions.register_events 3 w')
    = (Return (JNum 1), Permissions.register_events 3 w').
Proof.
  intros w'.
  assert (events Demo.world !! js "permissions::check-user" = None) as Hfree
    by by_evaluation.
  destruct (register_events_binds (H := Demo.engine) Demo.world 2 3 JNull) as [Hnew _].
  destruct (Hnew Hfree) as (_ & Hemit & _ & Hemit').
  split; [exact Hfree|].
  split; [unfold w'; rewrite Hemit; reflexivity|unfold w'; rewrite Hemit'; reflexivity].
Defined.

(** ** CommandManager: sequences of [add] *)

(** [add] on a table that has [Object.prototype] as its prototype, of a
    Command that is not named [__proto__]. *)
Lemma add_plain `{Wording} command w :
  commands_proto w = None -> name command ≠ Some (js "__proto__") ->
  CommandManager.add command w =
    (Return JUndefined,
     match name command with
     | Some n => set_commands <[n := command]> (logger.debug (LogText n) w)
     | None => w
     end).
Proof.
  intros Hp Hn. destruct (name command) as [n|] eqn:Heq.
  - apply add_stores; [done|left; congruence|by apply getter_only_plain].
  - unfold CommandManager.add. by rewrite Heq.
Qed.

Lemma add_commands_lookup `{Wording} command w (k : jsstring) :
  commands_proto w = None -> name command ≠ Some (js "__proto__") ->
  commands (CommandManager.add command w).2 !! k =
  if decide (name command = Some k) then Some command else commands w !! k.
Proof.
  intros Hp Hn. rewrite add_plain by done. destruct (name command) as [n|] eqn:Heq.
  - simpl. destruct (decide (n = k)) as [->|Hne].
    + by rewrite lookup_insert_eq, decide_True.
    + rewrite lookup_insert_ne by done. rewrite decide_False; [done|]. congruence.
  - by rewrite decide_False.
Qed.

Lemma add_frame `{Wording} command w :
  commands_proto w = None -> name command ≠ Some (js "__proto__") ->
  commands_proto (CommandManager.add command w).2 = None /\
  prefix (CommandManager.add command w).2 = prefix w /\
  events (CommandManager.add command w).2 = events w /\
  heap (CommandManager.add command w).2 = heap w /\
  outbox (CommandManager.add command w).2 = outbox w /\
  console (CommandManager.add command w).2 =
    console w ++ match name command with
                 | Some n => [(LDebug, LogText n)]
                 | None => []
                 end.
Proof.
  intros Hp Hn. rewrite add_plain by done.
  destruct (name command); simpl; [done|].
  by rewrite app_nil_r.
Qed.

Lemma add_all_cons `{Wording} c cs w :
  add_all (c :: cs) w = add_all cs (CommandManager.add c w).2.
Proof. reflexivity. Qed.

(** X5. On a table that has [Object.prototype] as its prototype, and for
    Commands none of which is named [__proto__]: after any sequence of
    [add], the table holds under each name the last Command of the
    sequence that carries this name, and what it held before when there
    is none; Commands without a name are skipped.  The prefix and the
    events are untouched, the prototype of the table is still
    [Object.prototype], and the console has one debug line per named
    Command, in the order of the calls. *)
Theorem add_all_last_wins `{Wording} (cs : list Command) (w : World) :
  commands_proto w = None ->
  Forall (fun c => name c ≠ Some (js "__proto__")) cs ->
  (forall n, commands (add_all cs w) !! n =
     match last_named n cs with
     | Some c => Some c
     | None => commands w !! n
     end) /\
  commands_proto (add_all cs w) = None /\
  prefix (add_all cs w) = prefix w /\
  events (add_all cs w) = events w /\
  console (add_all cs w) =
    console w ++ ((fun c => (LDebug, LogText (default [] (name c)))) <$> named cs).
Proof.
  intros Hproto Hcs. revert w Hproto.
  induction Hcs as [|c cs Hname Hcs IH]; intros w Hproto.
  - simpl. rewrite app_nil_r. done.
  - rewrite add_all_cons.
    destruct (add_frame c w Hproto Hname) as (Hproto1 & Hp1 & He1 & _ & _ & Hc1).
    destruct (IH _ Hproto1) as (Hl & Hpr & Hp & He & Hc).
    split; [|split; [done|split; [congruence|split; [congruence|]]]].
    + intros n. rewrite Hl, add_commands_lookup by done. simpl.
      destruct (last_named n cs); [done|]. by case_decide.
    + rewrite Hc, Hc1. unfold named. rewrite filter_cons.
      destruct (name c) as [n|] eqn:Hn.
      * rewrite decide_True by done. rewrite fmap_cons, Hn. simpl.
        by rewrite <- app_assoc.
      * rewrite decide_False by (intros Hx; by apply Hx). by rewrite app_nil_r.
Qed.

Lemma add_all_last_wins_witness :
  let second := {| name := Some (js "echo"); description := js "Another."; action := 7 |} in
  let cs := [Demo.echo; Demo.nameless; Demo.boom; second] in
  commands_proto Demo.empty = None /\
  Forall (fun c => name c ≠ Some (js "__proto__")) cs /\
  commands (add_all cs Demo.empty) !! js "echo" = Some second /\
  commands (add_all cs Demo.empty) !! js "boom" = Some Demo.boom /\
  console (add_all cs Demo.empty)
    = [(LDebug, LogText (js "echo")); (LDebug, LogText (js "boom"));
       (LDebug, LogText (js "echo"))].
Proof.
  intros second cs.
  assert (Forall (fun c => name c ≠ Some (js "__proto__")) cs) as Hcs.
  { repeat constructor; by_decision. }
  destruct (add_all_last_wins cs Demo.empty eq_refl Hcs) as (Hl & _ & _ & _ & Hc).
  split; [reflexivity|]. split; [exact Hcs|].
  split; [rewrite Hl; reflexivity|]. split; [rewrite Hl; reflexivity|].
  rewrite Hc. reflexivity.
Defined.

(** ** The tokens of a message *)

Lemma forallb_rev (f : N -> bool) (l : jsstring) : forallb f (rev l) = forallb f l.
Proof.
  induction l as [|c l IH]; simpl; [done|].
  rewrite forallb_app, IH. simpl. rewrite andb_true_r. apply andb_comm.
Qed.

Lemma trimStart_app_ws (a b : jsstring) :
  forallb JsString.is_whitespace a = true ->
  JsString.trimStart (a ++ b) = JsString.trimStart b.
Proof.
  induction a as [|c a IH]; simpl; [done|].
  intros [Hc Ha]%andb_prop. rewrite Hc. auto.
Qed.

Lemma trimStart_app_text (a b : jsstring) :
  forallb JsString.is_whitespace a = false ->
  JsString.trimStart (a ++ b) = JsString.trimStart a ++ b.
Proof.
  induction a as [|c a IH]; simpl; [done|].
  destruct (JsString.is_whitespace c); simpl; [auto|done].
Qed.

Lemma trimEnd_app_ws (a b : jsstring) :
  forallb JsString.is_whitespace b = true ->
  JsString.trimEnd (a ++ b) = JsString.trimEnd a.
Proof.
  intros Hb. unfold JsString.trimEnd. rewrite rev_app_distr.
  rewrite trimStart_app_ws; [done|]. by rewrite forallb_rev.
Qed.

Lemma trimEnd_app_text (a b : jsstring) :
  forallb JsString.is_whitespace b = false ->
  JsString.trimEnd (a ++ b) = a ++ JsString.trimEnd b.
Proof.
  intros Hb. unfold JsString.trimEnd. rewrite rev_app_distr.
  rewrite trimStart_app_text by (by rewrite forallb_rev).
  by rewrite rev_app_distr, rev_involutive.
Qed.

Lemma trimStart_text (s : jsstring) :
  forallb JsString.is_whitespace s = false ->
  forallb JsString.is_whitespace (JsString.trimStart s) = false.
Proof.
  induction s as [|c s IH]; simpl; [done|].
  destruct (JsString.is_whitespace c) eqn:Hc; simpl; [auto|].
  intros _. by rewrite Hc.
Qed.

(** What [trimStart] removes is whitespace, and what is left does not
    start with whitespace. *)
Lemma trimStart_split (s : jsstring) :
  exists ws, s = ws ++ JsString.trimStart s /\
             forallb JsString.is_whitespace ws = true /\
             match JsString.trimStart s with
             | [] => True
             | c :: _ => JsString.is_whitespace c = false
             end.
Proof.
  induction s as [|c s (ws & Heq & Hws & Hhd)]; simpl.
  - by exists [].
  - destruct (JsString.is_whitespace c) eqn:Hc.
    + exists (c :: ws). simpl. rewrite Hc, Hws. split; [by f_equal|done].
    + by exists [].
Qed.

(** The text [trim] leaves is empty, or starts and ends with a character
    that is not whitespace. *)
Lemma trim_ends (s : jsstring) :
  JsString.trim s = [] \/
  (exists c r, JsString.trim s = c :: r /\ JsString.is_whitespace c = false) /\
  (exists r c, JsString.trim s = r ++ [c] /\ JsString.is_whitespace c = false).
Proof.
  unfold JsString.trim, JsString.trimEnd.
  destruct (trimStart_split s) as (ws1 & _ & _ & Hhd).
  set (t := JsString.trimStart s) in *.
  destruct (trimStart_split (rev t)) as (ws2 & Heq & Hws2 & Hlast).
  set (u := JsString.trimStart (rev t)) in *.
  destruct u as [|c u']; [by left|]. right.
  assert (t = rev (c :: u') ++ rev ws2) as Ht.
  { rewrite <- rev_app_distr, <- Heq. by rewrite rev_involutive. }
  split.
  - simpl in Ht. destruct (rev u' ++ [c]) as [|c0 r0] eqn:Hr.
    { by destruct (rev u'). }
    simpl. rewrite Hr. exists c0, r0. split; [done|].
    rewrite Ht in Hhd. exact Hhd.
  - by exists (rev u'), c.
Qed.

(** Every piece [split] cuts from a text that ends outside a separator
    holds a character, once the piece under way does or the text starts
    outside a separator. *)
Lemma split_runs_nonempty (is_sep : N -> bool) (in_sep : bool) (tok s : jsstring) :
  (s = [] -> tok ≠ []) ->
  (forall r c, s = r ++ [c] -> is_sep c = false) ->
  (in_sep = false -> tok = [] -> exists c r, s = c :: r /\ is_sep c = false) ->
  Forall (fun t => t ≠ []) (JsString.split_runs is_sep in_sep tok s).
Proof.
  revert in_sep tok. induction s as [|c s IH]; intros in_sep tok Hnil Hlast Hhead; simpl.
  - constructor; [by apply Hnil|constructor].
  - assert (forall r c', s = r ++ [c'] -> is_sep c' = false) as Hlast'.
    { intros r c' ->. by apply (Hlast (c :: r) c'). }
    destruct (is_sep c) eqn:Hc.
    + assert (s ≠ []) as Hs.
      { intros ->. specialize (Hlast [] c eq_refl). congruence. }
      assert (Forall (fun t => t ≠ []) (JsString.split_runs is_sep true [] s)) as Hrest.
      { apply IH; [done|done|done]. }
      destruct in_sep; [done|].
      constructor; [|done]. intros ->.
      destruct (Hhead eq_refl eq_refl) as (c' & r & [= <- _] & Hc'). congruence.
    + apply IH; [|done|].
      * intros _. by destruct tok.
      * intros _ Htok. by destruct tok.
Qed.

Lemma space_is_whitespace (c : N) :
  JsString.is_whitespace c = false -> JsString.is_space c = false.
Proof.
  unfold JsString.is_space. destruct (N.eqb_spec c 32) as [->|]; [|done].
  by vm_compute.
Qed.

(** The first piece [split] cuts starts with the piece under way. *)
Lemma split_runs_first (is_sep : N -> bool) (tok s : jsstring) :
  exists y rest, JsString.split_runs is_sep false tok s = (tok ++ y) :: rest.
Proof.
  revert tok. induction s as [|c s IH]; intros tok; simpl.
  - exists [], []. by rewrite app_nil_r.
  - destruct (is_sep c).
    + exists [], (JsString.split_runs is_sep true [] s). by rewrite app_nil_r.
    + destruct (IH (tok ++ [c])) as (y & rest & ->).
      exists (c :: y), rest. by rewrite <- app_assoc.
Qed.

(** X6. [parse] always finds a command name: the list of tokens is never
    empty, so the test [command === undefined] cannot succeed.  The name
    is the empty string exactly when the text after the prefix is blank,
    and then there is no argument; otherwise the name does not start with
    whitespace, and no argument is ever an empty string. *)
Theorem tokens_shape (pfx text : jsstring) :
  exists command args,
    CommandManager.tokens pfx text = command :: args /\
    (command = [] <->
     JsString.trim (JsString.slice (List.length pfx) text) = []) /\
    (command = [] -> args = []) /\
    (forall c r, command = c :: r -> JsString.is_whitespace c = false) /\
    Forall (fun a => a ≠ []) args.
Proof.
  unfold CommandManager.tokens, JsString.split_spaces.
  destruct (trim_ends (JsString.slice (List.length pfx) text))
    as [Hnil|[(c & r & Hhd & Hc) (r' & c' & Hlast & Hc')]].
  - rewrite Hnil. exists [], []. simpl. repeat split; done.
  - set (t := JsString.trim _) in *.
    assert (Forall (fun t => t ≠ []) (JsString.split_runs JsString.is_space false [] t))
      as Hne.
    { apply split_runs_nonempty.
      - intros Ht. by rewrite Ht in Hhd.
      - intros r0 c0 Ht. rewrite Ht in Hlast. apply app_inj_tail in Hlast as [_ ->].
        by apply space_is_whitespace.
      - intros _ _. exists c, r. split; [done|]. by apply space_is_whitespace. }
    assert (exists y rest,
              JsString.split_runs JsString.is_space false [] t = (c :: y) :: rest)
      as (y & args & Hs).
    { rewrite Hhd. simpl. rewrite (space_is_whitespace _ Hc).
      destruct (split_runs_first JsString.is_space [c] r) as (y & rest & ->).
      by exists y, rest. }
    rewrite Hs in *. exists (c :: y), args. split; [done|].
    apply Forall_cons in Hne as [_ Hargs].
    split; [split; [done|]|].
    { intros Ht. by rewrite Ht in Hhd. }
    split; [done|]. split; [|done].
    by intros c0 r0 [= <- _].
Qed.

(** A run of separators counts as one. *)
Lemma split_runs_skip (is_sep : N -> bool) (n : nat) (c : N) (s : jsstring) :
  is_sep c = true ->
  JsString.split_runs is_sep true [] (replicate n c ++ s)
    = JsString.split_runs is_sep true [] s.
Proof.
  intros Hc. induction n as [|n IH]; simpl; [done|]. by rewrite Hc.
Qed.

Lemma split_runs_run (is_sep : N -> bool) (in_sep : bool) (tok s1 s2 : jsstring)
    (n : nat) (c : N) :
  is_sep c = true ->
  JsString.split_runs is_sep in_sep tok (s1 ++ replicate (S n) c ++ s2)
    = JsString.split_runs is_sep in_sep tok (s1 ++ c :: s2).
Proof.
  intros Hc. revert in_sep tok. induction s1 as [|d s1 IH]; intros in_sep tok; simpl.
  - rewrite Hc. by rewrite split_runs_skip.
  - destruct (is_sep d); [destruct in_sep|]; by rewrite IH.
Qed.

Lemma replicate_space_whitespace (n : nat) :
  forallb JsString.is_whitespace (replicate n 32%N) = true.
Proof. induction n as [|n IH]; simpl; [done|]. exact IH. Qed.

(** [trim] of a text between two stretches of whitespace. *)
Lemma trim_padded (ws1 body ws2 : jsstring) :
  forallb JsString.is_whitespace ws1 = true ->
  forallb JsString.is_whitespace ws2 = true ->
  JsString.trim (ws1 ++ body ++ ws2) = JsString.trim body.
Proof.
  intros H1 H2. unfold JsString.trim. rewrite trimStart_app_ws by done.
  destruct (forallb JsString.is_whitespace body) eqn:Hb.
  - rewrite trimStart_app_ws by done. rewrite (trimStart_whitespace ws2) by done.
    by rewrite (trimStart_whitespace body).
  - rewrite trimStart_app_text by done. by rewrite trimEnd_app_ws.
Qed.

(** [trim] of two texts joined by a stretch of whitespace. *)
Lemma trim_joined (s1 gap s2 : jsstring) :
  forallb JsString.is_whitespace s1 = false ->
  forallb JsString.is_whitespace s2 = false ->
  JsString.trim (s1 ++ gap ++ s2)
    = JsString.trimStart s1 ++ gap ++ JsString.trimEnd s2.
Proof.
  intros H1 H2. unfold JsString.trim. rewrite trimStart_app_text by done.
  rewrite !app_assoc. rewrite trimEnd_app_text by done. done.
Qed.

(** X7. Spacing does not matter to [parse]: whitespace of any kind before
    and after the text that follows the prefix is dropped, and a run of
    several spaces between two parts of the text gives the same tokens as
    a single space. *)
Theorem tokens_spacing (pfx : jsstring) :
  (forall ws1 body ws2,
     forallb JsString.is_whitespace ws1 = true ->
     forallb JsString.is_whitespace ws2 = true ->
     CommandManager.tokens pfx (pfx ++ ws1 ++ body ++ ws2)
       = CommandManager.tokens pfx (pfx ++ body)) /\
  (forall s1 s2 n,
     CommandManager.tokens pfx (pfx ++ s1 ++ replicate (S n) 32%N ++ s2)
       = CommandManager.tokens pfx (pfx ++ s1 ++ [32%N] ++ s2)).
Proof.
  split.
  - intros ws1 body ws2 H1 H2. rewrite !tokens_prefixed. by rewrite trim_padded.
  - intros s1 s2 n. rewrite !tokens_prefixed.
    destruct (forallb JsString.is_whitespace s1) eqn:H1.
    + assert (forall gap : jsstring, s1 ++ gap ++ s2 = (s1 ++ gap) ++ s2 ++ []) as Hshape
        by (intros gap; by rewrite app_nil_r, app_assoc).
      rewrite (Hshape (replicate (S n) 32%N)), (Hshape [32%N]).
      rewrite !trim_padded; try done.
      all: rewrite forallb_app, H1; first [done|apply replicate_space_whitespace].
    + destruct (forallb JsString.is_whitespace s2) eqn:H2.
      * assert (forall gap : jsstring, s1 ++ gap ++ s2 = [] ++ s1 ++ (gap ++ s2)) as Hshape
          by done.
        rewrite (Hshape (replicate (S n) 32%N)), (Hshape [32%N]).
        rewrite !trim_padded; try done.
        all: rewrite forallb_app, H2, andb_true_r;
          first [done|apply replicate_space_whitespace].
      * rewrite !trim_joined by done. unfold JsString.split_spaces.
        by rewrite split_runs_run.
Qed.

Lemma tokens_spacing_witness :
  CommandManager.tokens (js "!") (js "!" ++ [9%N; 32%N] ++ js "echo    a  b" ++ [10%N])
    = [js "echo"; js "a"; js "b"].
Proof.
  destruct (tokens_spacing (js "!")) as [Hpad Hrun].
  rewrite (Hpad [9%N; 32%N] (js "echo    a  b") [10%N] eq_refl eq_refl).
  change (js "echo    a  b") with (js "echo" ++ replicate 4 32%N ++ js "a  b").
  rewrite (Hrun (js "echo") (js "a  b") 3).
  change (js "echo" ++ [32%N] ++ js "a  b")
    with (js "echo a" ++ replicate 2 32%N ++ js "b").
  rewrite (Hrun (js "echo a") (js "b") 1). reflexivity.
Defined.

(** A command name that holds a character starts outside whitespace. *)
Lemma tokens_head (pfx text : jsstring) (c : N) (r : jsstring) (args : list jsstring) :
  CommandManager.tokens pfx text = (c :: r) :: args ->
  JsString.is_whitespace c = false.
Proof.
  unfold CommandManager.tokens, JsString.split_spaces.
  destruct (trim_ends (JsString.slice (List.length pfx) text))
    as [Hnil|[(c0 & r0 & Hhd & Hc) _]].
  - by rewrite Hnil.
  - rewrite Hhd. simpl. rewrite (space_is_whitespace _ Hc).
    destruct (split_runs_first JsString.is_space [c0] r0) as (y & rest & ->).
    by intros [= <- _ _].
Qed.

Lemma tokens_no_space (pfx text t : jsstring) :
  In t (CommandManager.tokens pfx text) -> ~ In 32%N t.
Proof.
  intros Hin H32. apply (split_runs_tokens _ _ []) in Hin; [|done].
  rewrite forallb_forall in Hin. specialize (Hin _ H32). by vm_compute in Hin.
Qed.

Lemma split_spaces_word (n : jsstring) :
  ~ In 32%N n -> JsString.split_spaces n = [n].
Proof.
  intros Hn. unfold JsString.split_spaces. rewrite split_runs_no_sep; [done|].
  apply forallb_forall. intros c Hc. apply negb_true_iff.
  unfold JsString.is_space. apply N.eqb_neq. intros ->. by apply Hn.
Qed.

Lemma parse_stored `{Engine} `{Wording} message w command args c :
  JsString.startsWith (content message) (prefix w) = true ->
  bot (author message) = false ->
  CommandManager.tokens (prefix w) (content message) = command :: args ->
  CommandManager.read command w = Stored c ->
  CommandManager.parse message w = CommandManager.try_execute c command message args w.
Proof.
  intros Hs Hb Ht Hc. unfold CommandManager.parse. by rewrite Hs, Hb, Ht, Hc.
Qed.

(** What [add] leaves alone, whatever the assignment does. *)
Lemma add_prefix `{Wording} command w :
  prefix (CommandManager.add command w).2 = prefix w.
Proof.
  unfold CommandManager.add, CommandManager.write.
  destruct (name command) as [n|]; [|done].
  destruct (_ && _); [done|]. by destruct (CommandManager.getter_only _ _).
Qed.

(** After an [add] that returns, the table reads the Command under its
    name. *)
Lemma add_read `{Wording} command n w :
  name command = Some n ->
  CommandManager.getter_only n w = false ->
  (CommandManager.add command w).1 = Return JUndefined /\
  CommandManager.read n (CommandManager.add command w).2 = Stored command.
Proof.
  intros Hn Hg.
  destruct (commands w !! n) as [held|] eqn:Hheld.
  - rewrite (add_stores _ n); [|done|right; by exists held|done].
    split; [done|]. apply commands_read_stored. simpl. by rewrite lookup_insert_eq.
  - destruct (decide (n = js "__proto__")) as [->|Hne].
    + rewrite (add_named _ (js "__proto__")), write_proto by done.
      split; [done|]. unfold CommandManager.read. simpl. by rewrite Hheld.
    + rewrite (add_stores _ n); [|done|by left|done].
      split; [done|]. apply commands_read_stored. simpl. by rewrite lookup_insert_eq.
Qed.

Lemma add_raises `{Wording} command n w :
  name command = Some n ->
  CommandManager.getter_only n w = true ->
  CommandManager.add command w
  = (Throw (TypeError (GetterOnly n)), logger.debug (LogText n) w).
Proof.
  intros Hn Hg. rewrite (add_named _ n) by done. unfold CommandManager.write.
  change (CommandManager.getter_only n (logger.debug (LogText n) w))
    with (CommandManager.getter_only n w).
  rewrite Hg. unfold CommandManager.getter_only in Hg.
  apply andb_prop in Hg as [_ Hk]. apply bool_decide_eq_true in Hk.
  rewrite (bool_decide_false (n = js "__proto__")); [by rewrite andb_false_r|].
  intros ->. revert Hk. by_decision.
Qed.

(** X8. A Command registered under a name without a space, and without
    whitespace at either end, is the one [parse] runs, with no argument,
    on a human message made of the prefix and that name, whatever
    whitespace surrounds the name.  The one exception is the case in
    which the assignment of [add] raises and registers nothing: the name
    is [name] or [description], the table does not hold it, and an
    earlier Command named [__proto__] is the prototype of the table. *)
Theorem add_then_parse `{Engine} `{Wording} (c : Command) (n : jsstring) (w : World)
    (message : Message) (ws1 ws2 : jsstring) :
  name c = Some n ->
  ~ In 32%N n ->
  JsString.trim n = n ->
  forallb JsString.is_whitespace ws1 = true ->
  forallb JsString.is_whitespace ws2 = true ->
  content message = prefix w ++ ws1 ++ n ++ ws2 ->
  bot (author message) = false ->
  if CommandManager.getter_only n w
  then CommandManager.add c w
       = (Throw (TypeError (GetterOnly n)), logger.debug (LogText n) w)
  else (CommandManager.add c w).1 = Return JUndefined /\
       CommandManager.parse message (CommandManager.add c w).2
       = CommandManager.try_execute c n message [] (CommandManager.add c w).2.
Proof.
  intros Hn Hsp Htrim H1 H2 Hc Hb.
  destruct (CommandManager.getter_only n w) eqn:Hg; [by apply add_raises|].
  destruct (add_read c n w Hn Hg) as [Hret Hread]. split; [done|].
  pose proof (add_prefix c w) as Hp.
  apply parse_stored.
  - rewrite Hp, Hc. apply startsWith_app.
  - done.
  - rewrite Hp, Hc, tokens_prefixed, trim_padded, Htrim by done.
    by apply split_spaces_word.
  - done.
Qed.

Lemma add_then_parse_witness :
  let message := Demo.said (js "!  echo" ++ [9%N]) in
  let held := (CommandManager.add Demo.proto Demo.empty).2 in
  let named_name :=
    {| name := Some (js "name"); description := js "Named name."; action := 0 |} in
  name Demo.echo = Some (js "echo") /\
  ~ In 32%N (js "echo") /\
  JsString.trim (js "echo") = js "echo" /\
  content message = prefix Demo.empty ++ js "  " ++ js "echo" ++ [9%N] /\
  outbox (CommandManager.parse (H := Demo.engine) message
            (CommandManager.add Demo.echo Demo.empty).2).2 = [(message, [])] /\
  outbox (CommandManager.parse (H := Demo.engine) (Demo.said (js "!__proto__")) held).2
    = [(Demo.said (js "!__proto__"), [])] /\
  (CommandManager.add named_name held).1 = Throw (TypeError (GetterOnly (js "name"))).
Proof.
  intros message held named_name.
  assert (~ In 32%N (js "echo")) as Hsp by (vm_compute; intuition discriminate).
  assert (~ In 32%N (js "__proto__")) as Hsp' by (vm_compute; intuition discriminate).
  assert (~ In 32%N (js "name")) as Hsp'' by (vm_compute; intuition discriminate).
  split; [reflexivity|]. split; [exact Hsp|]. split; [reflexivity|].
  split; [reflexivity|]. split; [|split].
  - pose proof (add_then_parse (H := Demo.engine) Demo.echo (js "echo") Demo.empty message
                  (js "  ") [9%N] eq_refl Hsp eq_refl eq_refl eq_refl eq_refl eq_refl)
      as Hrun.
    change (CommandManager.getter_only (js "echo") Demo.empty) with false in Hrun.
    rewrite (proj2 Hrun). reflexivity.
  - pose proof (add_then_parse (H := Demo.engine) Demo.proto (js "__proto__") Demo.empty
                  (Demo.said (js "!__proto__")) [] [] eq_refl Hsp' eq_refl eq_refl eq_refl
                  eq_refl eq_refl) as Hrun.
    change (CommandManager.getter_only (js "__proto__") Demo.empty) with false in Hrun.
    unfold held. rewrite (proj2 Hrun). reflexivity.
  - pose proof (add_then_parse (H := Demo.engine) named_name (js "name") held
                  (Demo.said (js "!name")) [] [] eq_refl Hsp'' eq_refl eq_refl eq_refl
                  eq_refl eq_refl) as Hrun.
    change (CommandManager.getter_only (js "name") held) with true in Hrun.
    rewrite Hrun. reflexivity.
Defined.

(** X9. [parse] never looks up a name that holds a space or that starts
    with whitespace: a Command stored under such a name is never the one
    a message resolves to. *)
Theorem resolve_never_spaced (message : Message) (w : World) (command : jsstring)
    (c : Command) (args : list jsstring) :
  CommandManager.resolve message w = Some (command, c, args) ->
  ~ In 32%N command /\
  (forall ch r, command = ch :: r -> JsString.is_whitespace ch = false) /\
  Forall (fun a => ~ In 32%N a) args /\
  CommandManager.read command w = Stored c.
Proof.
  unfold CommandManager.resolve.
  destruct (negb _ || _); [done|].
  destruct (CommandManager.tokens _ _) as [|command' args'] eqn:Ht; [done|].
  destruct (CommandManager.read command' w) as [|c'|] eqn:Hc; [done| |done].
  intros [= <- <- <-].
  split; [|split; [|split; [|done]]].
  - apply (tokens_no_space (prefix w) (content message)). rewrite Ht. by left.
  - intros ch r ->. by apply (tokens_head _ _ _ _ _ Ht).
  - apply Forall_forall. intros a Ha.
    apply (tokens_no_space (prefix w) (content message)). rewrite Ht.
    right. by apply list_elem_of_In.
Qed.

Lemma resolve_never_spaced_witness :
  let message := Demo.said (js "!echo hello world") in
  CommandManager.resolve message Demo.world
    = Some (js "echo", Demo.echo, [js "hello"; js "world"]) /\
  ~ In 32%N (js "echo").
Proof.
  intros message.
  assert (CommandManager.resolve message Demo.world
          = Some (js "echo", Demo.echo, [js "hello"; js "world"])) as Hr
    by by_evaluation.
  split; [exact Hr|].
  exact (proj1 (resolve_never_spaced message Demo.world _ _ _ Hr)).
Defined.

(** ** System: snapshots *)

Lemma set_field_same this k v w o :
  heap w !! this = Some o -> o !! k = Some v -> set_field this k v w = w.
Proof.
  intros Ho Hk. unfold set_field, set_heap. rewrite Ho. simpl.
  rewrite (insert_id o) by done. rewrite (insert_id (heap w)) by done.
  by destruct w.
Qed.

Lemma fields_Some this w (k : jsstring) (v : Any) :
  fields this w !! k = Some v ->
  exists o, heap w !! this = Some o /\ o !! k = Some v.
Proof.
  unfold fields. destruct (heap w !! this) as [o|]; simpl.
  - intros Hk. by exists o.
  - by rewrite lookup_empty.
Qed.

(** Assigning to a field the value it has changes nothing. *)
Lemma assign_same this k v w :
  fields this w !! k = Some v -> assign this k v w = Some w.
Proof.
  intros Hf. rewrite assign_held by (by exists v).
  destruct (fields_Some _ _ _ _ Hf) as (o & Ho & Hk).
  by rewrite (set_field_same _ _ _ _ o).
Qed.

Lemma assign_keys_None (this : loc) (obj : Obj) (ks : list jsstring) :
  foldl (fun r k => w ← r; assign this k (get obj k) w) None ks = None.
Proof. by induction ks. Qed.

(** A loop whose assignments all change nothing changes nothing. *)
Lemma assign_keys_fixed (this : loc) (obj : Obj) (ks : list jsstring) (w : World) :
  (forall k, k ∈ ks -> assign this k (get obj k) w = Some w) ->
  foldl (fun r k => w ← r; assign this k (get obj k) w) (Some w) ks = Some w.
Proof.
  induction ks as [|a ks IH]; intros Hks; [done|].
  change (foldl ?f ?r (a :: ks)) with (foldl f (f r a) ks). simpl.
  rewrite Hks by (by left). apply IH. intros k Hk. apply Hks. by right.
Qed.

(** What one assignment of the loop does to the fields of [this]. *)
Lemma assign_fields this k v w w' (k' : jsstring) :
  assign this k v w = Some w' ->
  (k' ≠ k -> fields this w' !! k' = fields this w !! k') /\
  (fields this w' !! k = Some v \/
   k = js "__proto__" /\ primitive v = true /\ fields this w' !! k = None).
Proof.
  unfold assign. case_decide as Hk.
  - case_bool_decide as Hheld.
    + intros [= <-]. rewrite fields_set_field. split.
      * intros Hne. by rewrite lookup_insert_ne.
      * left. by rewrite lookup_insert_eq.
    + destruct (primitive v) eqn:Hv; [|done]. intros [= <-]. split; [done|].
      right. split; [done|]. split; [done|].
      by destruct (fields this w !! k).
  - intros [= <-]. rewrite fields_set_field. split.
    + intros Hne. by rewrite lookup_insert_ne.
    + left. by rewrite lookup_insert_eq.
Qed.

Lemma assign_keys_untouched (this : loc) (obj : Obj) (ks : list jsstring)
    (w w' : World) (k : jsstring) :
  foldl (fun r k => w ← r; assign this k (get obj k) w) (Some w) ks = Some w' ->
  k ∉ ks -> fields this w' !! k = fields this w !! k.
Proof.
  revert w. induction ks as [|a ks IH]; intros w; [by intros [= <-]|].
  change (foldl ?f ?r (a :: ks)) with (foldl f (f r a) ks). simpl.
  destruct (assign this a (get obj a) w) as [w1|] eqn:Ha;
    [|by rewrite assign_keys_None].
  intros Hloop [Hne Hk]%not_elem_of_cons.
  rewrite (IH w1) by done.
  by apply (assign_fields _ _ _ _ _ k Ha).
Qed.

(** Once the loop has run, each of its assignments changes nothing. *)
Lemma assign_keys_settled (this : loc) (obj : Obj) (ks : list jsstring) (w w' : World) :
  NoDup ks ->
  foldl (fun r k => w ← r; assign this k (get obj k) w) (Some w) ks = Some w' ->
  forall k, k ∈ ks -> assign this k (get obj k) w' = Some w'.
Proof.
  intros Hnd. revert w. induction Hnd as [|a ks Ha Hnd IH]; intros w.
  - intros _ k Hk. by apply elem_of_nil in Hk.
  - change (foldl ?f ?r (a :: ks)) with (foldl f (f r a) ks). simpl.
    destruct (assign this a (get obj a) w) as [w1|] eqn:Hw1;
      [|by rewrite assign_keys_None].
    intros Hloop k [->|Hk]%elem_of_cons; [|by apply (IH w1)].
    pose proof (assign_keys_untouched _ _ _ _ _ a Hloop Ha) as Hkeep.
    destruct (assign_fields _ _ _ _ _ a Hw1) as [_ [Hset|(Hp & Hv & Hnone)]].
    + apply assign_same. by rewrite Hkeep.
    + rewrite Hp in *. apply assign_proto_primitive; [|done]. by rewrite Hkeep.
Qed.

Lemma deserialize_settled (this : loc) (obj : Obj) (w w' : World) :
  System.deserialize this obj w = Some w' -> System.deserialize this obj w' = Some w'.
Proof.
  intros Hloop. apply assign_keys_fixed.
  apply (assign_keys_settled _ _ _ w); [|done].
  apply NoDup_fst_map_to_list.
Qed.

(** X10. Restoring into a System the snapshot just taken of it changes
    nothing at all, and restoring any snapshot a second time changes
    nothing more than the first time did. *)
Theorem deserialize_round_trip (this : loc) (w : World) :
  System.deserialize this (System.serialize this w) w = Some w /\
  (forall obj,
     System.deserialize this obj w ≫= System.deserialize this obj
       = System.deserialize this obj w).
Proof.
  split.
  - apply assign_keys_fixed. intros k [v Hv]%elem_of_Object_keys.
    rewrite (get_Some _ _ v) by done. apply assign_same.
    unfold System.serialize in Hv. by apply lookup_delete_Some in Hv as [_ Hv].
  - intros obj. destruct (System.deserialize this obj w) as [w'|] eqn:Hw'; [|done].
    simpl. by apply (deserialize_settled this obj w).
Qed.

(** X11. Restoring the snapshot of one System into another gives the
    second every field of the first under the same name, the key
    [event_manager] apart: its name and its reference to the registry are
    copied with the rest.  The fields the first does not have stay as
    they were, and the first System is not modified.  (The first System
    has no own property [__proto__].) *)
Theorem snapshot_transfer (source target : loc) (w : World) :
  fields source w !! js "__proto__" = None ->
  exists w',
    System.deserialize target (System.serialize source w) w = Some w' /\
    (forall k v, k ≠ js "event_manager" ->
       fields source w !! k = Some v -> fields target w' !! k = Some v) /\
    (forall k, fields source w !! k = None ->
       fields target w' !! k = fields target w !! k) /\
    (fields target w' !! js "event_manager" = fields target w !! js "event_manager") /\
    (source ≠ target -> fields source w' = fields source w).
Proof.
  intros Hproto.
  assert (System.serialize source w !! js "__proto__" = None) as Hsnap.
  { unfold System.serialize. apply lookup_delete_None. by right. }
  destruct (deserialize_assigns target _ w Hsnap) as (w' & Hw' & Hk & _ & Hother & _).
  exists w'. split; [exact Hw'|]. split; [|split; [|split]].
  - intros k v Hne Hs. by rewrite Hk, serialize_lookup, Hs.
  - intros k Hs. rewrite Hk.
    unfold System.serialize. destruct (delete _ _ !! k) as [v|] eqn:Hd; [|done].
    apply lookup_delete_Some in Hd as [_ Hd]. congruence.
  - rewrite Hk. unfold System.serialize. by rewrite lookup_delete_eq.
  - intros Hne. unfold fields. by rewrite Hother.
Qed.

Lemma snapshot_transfer_witness :
  let w := (System.constructor (H := Demo.engine) 2%positive (js "Other") false
              Demo.with_system).2 in
  fields 1%positive w !! js "__proto__" = None /\
  fields 1%positive w !! js "name" = Some (JStr (js "Example")) /\
  fields 2%positive w !! js "name" = Some (JStr (js "Other")) /\
  exists w',
    System.deserialize 2%positive (System.serialize 1%positive w) w = Some w' /\
    fields 2%positive w' !! js "name" = Some (JStr (js "Example")) /\
    fields 2%positive w' !! js "state" = Some (JNum 3) /\
    fields 1%positive w' = fields 1%positive w.
Proof.
  intros w.
  assert (fields 1%positive w !! js "__proto__" = None) as Hp by by_evaluation.
  destruct (snapshot_transfer 1%positive 2%positive w Hp)
    as (w' & Hw' & Hcopy & _ & _ & Hsrc).
  assert (fields 1%positive w !! js "name" = Some (JStr (js "Example"))) as Hn
    by by_evaluation.
  assert (fields 1%positive w !! js "state" = Some (JNum 3)) as Hs by by_evaluation.
  split; [exact Hp|]. split; [exact Hn|]. split; [by_evaluation|].
  exists w'. split; [exact Hw'|].
  split; [apply Hcopy; [vm_compute; discriminate|exact Hn]|].
  split; [apply Hcopy; [vm_compute; discriminate|exact Hs]|].
  apply Hsrc. discriminate.
Defined.

(** X12. The constructor does not guard its [emit]: when serialization
    is asked for and the handler bound to [serialize::register] raises,
    the constructor raises the same error, after it has printed its line
    and set [events] and [name] on the object. *)
Theorem constructor_handler_raises `{Engine} `{Wording} (this : loc) (name : jsstring)
    (w : World) (handler : Event) (error : Thrown) (w' : World) :
  let built :=
    set_field this (js "name") (JStr name)
      (set_field this (js "events") JEvents
         (logger.log (LogText (js "[SYSTEM] Creating " ++ name ++ js " System.")) w)) in
  events w !! js "serialize::register" = Some handler ->
  call (_action handler) [JStr name; JRef this] built = (Throw error, w') ->
  System.constructor this name true w = (Throw error, w') /\
  fields this built !! js "name" = Some (JStr name) /\
  fields this built !! js "events" = Some JEvents.
Proof.
  intros built Hb Hcall. split; [|split].
  - rewrite constructor_unfold. fold built. cbv zeta.
    rewrite (emit_bound _ _ _ handler) by done. by rewrite Hcall.
  - unfold built. rewrite fields_set_field. by rewrite lookup_insert_eq.
  - unfold built. rewrite !fields_set_field.
    rewrite lookup_insert_ne by (vm_compute; discriminate).
    by rewrite lookup_insert_eq.
Qed.

Lemma constructor_handler_raises_witness :
  let w := Events.on (js "serialize::register") 1 Demo.empty in
  events w !! js "serialize::register"
    = Some {| _name := js "serialize::register"; _action := 1 |} /\
  (System.constructor (H := Demo.engine) 1%positive (js "Example") true w).1
    = Throw (ErrorObject (js "Error") (js "boom")).
Proof.
  intros w.
  assert (events w !! js "serialize::register"
          = Some {| _name := js "serialize::register"; _action := 1 |}) as Hb
    by by_evaluation.
  split; [exact Hb|].
  destruct (constructor_handler_raises (H := Demo.engine) 1%positive (js "Example") w
              _ (ErrorObject (js "Error") (js "boom")) _ Hb eq_refl) as [-> _].
  reflexivity.
Defined.

(** ** Plugins *)

Lemma add_plugins_cons {T : Type} `{Plugin T} (p : T) (ps : list T)
    (table : gmap jsstring T) :
  add_plugins (p :: ps) table =
  foldl (fun r p => table ← r; Plugins.add_plugin p table) (Plugins.add_plugin p table) ps.
Proof. reflexivity. Qed.

Lemma add_plugin_plain {T : Type} `{Plugin T} (p : T) (table : gmap jsstring T) :
  plugin_name p ≠ js "__proto__" ->
  Plugins.add_plugin p table = Some (<[plugin_name p := p]> table).
Proof. intros Hp. unfold Plugins.add_plugin. by rewrite decide_False. Qed.

Lemma last_plugin_Some {T : Type} `{Plugin T} (n : jsstring) (ps : list T) (p : T) :
  last_plugin n ps = Some p -> plugin_name p = n /\ In p ps.
Proof.
  induction ps as [|q ps IH]; simpl; [done|].
  destruct (last_plugin n ps) as [p'|].
  - intros [= ->]. destruct IH as [Hn Hin]; [done|]. split; [done|by right].
  - case_decide; [|done]. intros [= ->]. split; [done|by left].
Qed.

(** The table after a sequence of [add_plugin], none under the name
    [__proto__]. *)
Lemma add_plugins_plain {T : Type} `{Plugin T} (ps : list T) (table : gmap jsstring T) :
  Forall (fun p => plugin_name p ≠ js "__proto__") ps ->
  exists table',
    add_plugins ps table = Some table' /\
    (forall n, table' !! n =
       match last_plugin n ps with
       | Some p => Some p
       | None => table !! n
       end) /\
    size table' <= size table + List.length ps.
Proof.
  intros Hps. revert table. induction Hps as [|q ps Hq Hps IH]; intros table.
  - exists table. split; [done|]. split; [done|]. simpl. lia.
  - rewrite add_plugins_cons, add_plugin_plain by done.
    destruct (IH (<[plugin_name q := q]> table)) as (table' & Hrun & Hlookup & Hsize).
    exists table'. split; [exact Hrun|]. split.
    + intros n. rewrite Hlookup. simpl.
      destruct (last_plugin n ps); [done|].
      case_decide as Hn.
      * by rewrite <- Hn, lookup_insert_eq.
      * by rewrite lookup_insert_ne.
    + rewrite map_size_insert in Hsize.
      destruct (table !! plugin_name q); simpl in *; lia.
Qed.

(** X13. After any sequence of [add_plugin], none of them under the name
    [__proto__], the table holds under each name the last plugin of the
    sequence with that name, and what it held before when there is none.
    A table that started empty holds every plugin under its own name,
    holds only plugins that were added, and has at most as many entries
    as there were calls. *)
Theorem add_plugins_last_wins {T : Type} `{Plugin T} (ps : list T) :
  Forall (fun p => plugin_name p ≠ js "__proto__") ps ->
  (forall table : gmap jsstring T,
     exists table',
       add_plugins ps table = Some table' /\
       forall n, table' !! n =
         match last_plugin n ps with
         | Some p => Some p
         | None => table !! n
         end) /\
  (exists table',
     add_plugins ps Plugins.constructor = Some table' /\
     (forall (n : jsstring) (p : T),
        table' !! n = Some p -> plugin_name p = n /\ In p ps) /\
     size table' <= List.length ps).
Proof.
  intros Hps. split.
  - intros table. destruct (add_plugins_plain ps table Hps) as (table' & Hrun & Hl & _).
    by exists table'.
  - destruct (add_plugins_plain ps Plugins.constructor Hps) as (table' & Hrun & Hl & Hs).
    exists table'. split; [exact Hrun|]. split.
    + intros n p. rewrite Hl. unfold Plugins.constructor.
      destruct (last_plugin n ps) as [p'|] eqn:Hlast.
      * intros [= ->]. by apply last_plugin_Some.
      * by rewrite lookup_empty.
    + unfold Plugins.constructor in Hs. by rewrite map_size_empty in Hs.
Qed.

Lemma add_plugins_last_wins_witness :
  let v1 := {| sample_name := js "music"; sample_version := 1 |} in
  let v2 := {| sample_name := js "music"; sample_version := 2 |} in
  let levels := {| sample_name := js "levels"; sample_version := 1 |} in
  Forall (fun p => plugin_name p ≠ js "__proto__") [v1; levels; v2] /\
  exists table',
    add_plugins [v1; levels; v2] Plugins.constructor = Some table' /\
    table' !! js "music" = Some v2 /\
    size table' <= 3.
Proof.
  intros v1 v2 levels.
  assert (Forall (fun p => plugin_name p ≠ js "__proto__") [v1; levels; v2]) as Hps.
  { repeat constructor; by_decision. }
  destruct (add_plugins_last_wins [v1; levels; v2] Hps) as (Hl & table' & Hrun & _ & Hs).
  destruct (Hl Plugins.constructor) as (table & Hrun' & Hlookup).
  split; [exact Hps|]. exists table'. split; [exact Hrun|]. split; [|exact Hs].
  assert (table = table') as <- by congruence.
  rewrite Hlookup. reflexivity.
Defined.

(** ** Youtube *)

Import Youtube.


Lemma clear_timer_fields p :
  state (clear_timer p) = state p /\
  play_queue (clear_timer p) = play_queue p /\
  connection_timer (clear_timer p) = connection_timer p /\
  world (clear_timer p) = world p /\
  timers (clear_timer p) = timers p /\
  calls (clear_timer p) = calls p ++ cleared p.
Proof.
  unfold clear_timer, cleared. destruct (connection_timer p) eqn:Ht; simpl.
  - by rewrite Ht.
  - by rewrite Ht, app_nil_r.
Qed.

Lemma stream_audio_empty validateURL message channel p :
  play_queue p = [] ->
  stream_audio validateURL message channel p =
  (Finished,
   set_state idle
     (set_leave_timer channel
        (in_world (logger.log (LogText (js "[YOUTUBE] Exiting Loop. Reason: { No more videos }")))
           (set_play_queue [] p)))).
Proof. intros Hq. unfold stream_audio. by rewrite Hq. Qed.

Lemma stream_audio_invalid validateURL message channel p q rest :
  play_queue p = q :: rest -> state p ≠ stopped -> validateURL q = false ->
  stream_audio validateURL message channel p =
  (Finished,
   in_world (reply message
               (js "Error 01: Invalid video link. Cannot search youtube at this time."))
     (clear_timer (set_play_queue rest p))).
Proof.
  intros Hq Hs Hv. unfold stream_audio. rewrite Hq. simpl.
  rewrite bool_decide_false by done. unfold find_video. by rewrite Hv.
Qed.

Lemma stream_audio_valid validateURL message channel p q rest :
  play_queue p = q :: rest -> state p ≠ stopped -> validateURL q = true ->
  stream_audio validateURL message channel p =
  (AwaitJoin q message channel,
   connect channel (host (Ytdl q) (clear_timer (set_play_queue rest p)))).
Proof.
  intros Hq Hs Hv. unfold stream_audio. rewrite Hq. simpl.
  rewrite bool_decide_false by done. unfold find_video. by rewrite Hv.
Qed.

Lemma stream_audio_consistent validateURL message channel p :
  consistent p -> consistent (stream_audio validateURL message channel p).2.
Proof.
  intros [Hns Hidle].
  destruct (play_queue p) as [|q rest] eqn:Hq.
  - rewrite stream_audio_empty by done. split; done.
  - assert (state p ≠ idle) as Hni.
    { intros Hi. specialize (Hidle Hi). congruence. }
    destruct (clear_timer_fields (set_play_queue rest p)) as (Hs & _).
    destruct (validateURL q) eqn:Hv.
    + rewrite (stream_audio_valid _ _ _ _ q rest) by done.
      split; simpl; by rewrite Hs.
    + rewrite (stream_audio_invalid _ _ _ _ q rest) by done.
      split; simpl; by rewrite Hs.
Qed.

Lemma execute_queue_consistent validateURL message channel query p :
  consistent p -> consistent (execute_queue validateURL message channel query p).2.
Proof.
  intros Hc. unfold execute_queue.
  destruct query as [q|]; [|exact Hc].
  destruct channel as [channel|]; [|exact Hc].
  destruct (joinable channel); simpl; [|exact Hc].
  destruct Hc as [Hns Hidle].
  destruct (state p) eqn:Hs; simpl.
  - split; simpl; by rewrite Hs.
  - done.
  - apply stream_audio_consistent. split; simpl; done.
Qed.

Lemma step_consistent validateURL p p' :
  consistent p -> step validateURL p p' -> consistent p'.
Proof.
  intros Hc Hstep. destruct Hstep as [message member query p|message channel p|? ? ? ? p|? p].
  - destruct member as [channel|]; simpl; [|exact Hc].
    by apply execute_queue_consistent.
  - by apply stream_audio_consistent.
  - exact Hc.
  - exact Hc.
Qed.

(** X14. Whatever [play] commands arrive, streams end, connections
    resolve and timers fire, the plugin built by the constructor is never
    [stopped] (nothing calls [stop]), and whenever it is [idle] its queue
    is empty. *)
Theorem youtube_consistent (validateURL : jsstring -> bool) (w : World) (p : Player) :
  rtc (step validateURL) (initial w) p -> consistent p.
Proof.
  assert (consistent (initial w)) as H0 by (split; done).
  revert H0. generalize (initial w). intros p0 H0 Hr.
  induction Hr as [|p0 p1 p2 Hstep _ IH]; [done|].
  apply IH. by apply (step_consistent validateURL p0).
Qed.


(** A play command to a player that is playing. *)
Lemma play_action_playing validateURL message member query p :
  state p = isPlaying ->
  let r := play_action validateURL message member query p in
  r.1 = Finished /\ state r.2 = isPlaying /\ calls r.2 = calls p /\
  connection_timer r.2 = connection_timer p /\ timers r.2 = timers p /\
  exists qs, play_queue r.2 = play_queue p ++ qs.
Proof.
  intros Hs. unfold play_action, execute_queue.
  destruct member as [[channel|]|]; simpl.
  - destruct query as [q|]; simpl.
    + destruct (joinable channel); simpl.
      * rewrite Hs. simpl. repeat split; try done. by exists [q].
      * repeat split; try done. exists []. by rewrite app_nil_r.
    + repeat split; try done. exists []. by rewrite app_nil_r.
  - destruct query; simpl; repeat split; try done; exists []; by rewrite app_nil_r.
  - repeat split; try done. exists []. by rewrite app_nil_r.
Qed.

Lemma play_all_playing validateURL cmds p :
  state p = isPlaying ->
  state (play_all validateURL cmds p) = isPlaying /\
  calls (play_all validateURL cmds p) = calls p /\
  connection_timer (play_all validateURL cmds p) = connection_timer p /\
  timers (play_all validateURL cmds p) = timers p /\
  exists qs, play_queue (play_all validateURL cmds p) = play_queue p ++ qs.
Proof.
  revert p. induction cmds as [|[[message member] query] cmds IH]; intros p Hs.
  - simpl. repeat split; try done. exists []. by rewrite app_nil_r.
  - destruct (play_action_playing validateURL message member query p Hs)
      as (_ & Hs1 & Hc1 & Ht1 & Hn1 & qs1 & Hq1).
    destruct (IH _ Hs1) as (Hs2 & Hc2 & Ht2 & Hn2 & qs2 & Hq2).
    change (play_all validateURL ((message, member, query) :: cmds) p)
      with (play_all validateURL cmds (play_action validateURL message member query p).2).
    split; [done|]. split; [congruence|]. split; [congruence|]. split; [congruence|].
    exists (qs1 ++ qs2). by rewrite Hq2, Hq1, app_assoc.
Qed.

(** X16. A link that [ytdl] does not accept, queued while the plugin is
    idle, is answered by [Added: ...] and then [Error 01: ...]; it is
    removed from the queue, [ytdl] and [join] are not called, and the
    state stays [isPlaying].  From then on no [play] command starts a
    stream: the calls to the host stay as they are. *)
Theorem invalid_link_blocks (validateURL : jsstring -> bool) (message : Message)
    (channel : VoiceChannel) (q : jsstring) (p : Player) :
  state p = idle -> play_queue p = [] ->
  joinable channel = true -> validateURL q = false ->
  let r := execute_queue validateURL message (Some channel) (Some q) p in
  r.1 = Finished /\
  state r.2 = isPlaying /\ play_queue r.2 = [] /\
  calls r.2 = calls p ++ cleared p /\
  outbox (world r.2) = outbox (world p) ++
    [(message, js "Added: " ++ q);
     (message, js "Error 01: Invalid video link. Cannot search youtube at this time.")] /\
  forall cmds,
    state (play_all validateURL cmds r.2) = isPlaying /\
    calls (play_all validateURL cmds r.2) = calls r.2.
Proof.
  intros Hs Hq Hj Hv r.
  assert (r = (Finished,
               in_world (reply message
                 (js "Error 01: Invalid video link. Cannot search youtube at this time."))
                 (clear_timer (set_play_queue []
                    (set_state isPlaying
                       (in_world (reply message (js "Added: " ++ q))
                          (set_play_queue (play_queue p ++ [q]) p))))))) as Hr.
  { unfold r, execute_queue. rewrite Hj. simpl. rewrite Hs. simpl.
    rewrite (stream_audio_invalid _ _ _ _ q []); [done| |done|done].
    simpl. by rewrite Hq. }
  rewrite Hr. simpl.
  match goal with |- context [clear_timer ?x] =>
    destruct (clear_timer_fields x) as (Hcs & Hcq & Hct & Hcw & Hcn & Hcc) end.
  split; [done|]. split; [by rewrite Hcs|]. split; [by rewrite Hcq|].
  split; [by rewrite Hcc|]. split.
  - rewrite Hcw. simpl. by rewrite <- app_assoc.
  - intros cmds.
    match goal with |- context [play_all _ _ ?x] =>
      destruct (play_all_playing validateURL cmds x) as (H1 & H2 & _) end.
    + simpl. by rewrite Hcs.
    + split; [done|]. by rewrite H2.
Qed.

(** X15. While the state is [isPlaying], [play] commands only reply and
    add links at the back of the queue: none of them calls the host, sets
    or clears a timer, or changes the state. *)
Theorem playing_only_queues (validateURL : jsstring -> bool) (cmds : list PlayCommand)
    (p : Player) :
  state p = isPlaying ->
  let p' := play_all validateURL cmds p in
  state p' = isPlaying /\ calls p' = calls p /\
  connection_timer p' = connection_timer p /\
  exists qs, play_queue p' = play_queue p ++ qs.
Proof.
  intros Hs p'. destruct (play_all_playing validateURL cmds p Hs) as (H1 & H2 & H3 & _ & H5).
  done.
Qed.


Lemma ytdl_urls_app (a b : list HostCall) :
  ytdl_urls (a ++ b) = ytdl_urls a ++ ytdl_urls b.
Proof.
  induction a as [|c a IH]; simpl; [done|]. destruct c; simpl; by rewrite ?IH.
Qed.

Lemma ytdl_urls_cleared p : ytdl_urls (cleared p) = [].
Proof. unfold cleared. by destruct (connection_timer p). Qed.

Lemma execute_queue_playing validateURL message channel q p :
  state p = isPlaying -> joinable channel = true ->
  execute_queue validateURL message (Some channel) (Some q) p =
  (Finished,
   in_world (reply message (js "Added: " ++ q)) (set_play_queue (play_queue p ++ [q]) p)).
Proof. intros Hs Hj. unfold execute_queue. rewrite Hj. simpl. by rewrite Hs. Qed.

Lemma queue_all_playing validateURL message channel qs p :
  state p = isPlaying -> joinable channel = true ->
  state (queue_all validateURL message channel qs p) = isPlaying /\
  play_queue (queue_all validateURL message channel qs p) = play_queue p ++ qs /\
  calls (queue_all validateURL message channel qs p) = calls p /\
  outbox (world (queue_all validateURL message channel qs p)) =
    outbox (world p) ++ ((fun q => (message, js "Added: " ++ q)) <$> qs).
Proof.
  revert p. induction qs as [|q qs IH]; intros p Hs Hj.
  - simpl. by rewrite !app_nil_r.
  - change (queue_all validateURL message channel (q :: qs) p)
      with (queue_all validateURL message channel qs
              (execute_queue validateURL message (Some channel) (Some q) p).2).
    rewrite execute_queue_playing by done. simpl.
    match goal with |- context [queue_all _ _ _ qs ?x] =>
      destruct (IH x) as (H1 & H2 & H3 & H4) end; [done|done|].
    rewrite H1, H2, H3, H4. simpl. by rewrite <- !app_assoc.
Qed.

Lemma end_all_valid validateURL message channel l p :
  play_queue p = l -> state p = isPlaying ->
  Forall (fun q => validateURL q = true) l ->
  let p' := end_all validateURL message channel (List.length l) p in
  ytdl_urls (calls p') = ytdl_urls (calls p) ++ l /\
  play_queue p' = [] /\ state p' = isPlaying.
Proof.
  revert p. induction l as [|q rest IH]; intros p Hq Hs Hv.
  - simpl. by rewrite app_nil_r.
  - apply Forall_cons in Hv as [Hvq Hvr]. simpl.
    rewrite (stream_audio_valid _ _ _ _ q rest); [|done|by rewrite Hs|done].
    destruct (clear_timer_fields (set_play_queue rest p)) as (Hcs & Hcq & _ & _ & _ & Hcc).
    match goal with |- context [end_all _ _ _ _ ?x] =>
      destruct (IH x) as (H1 & H2 & H3) end.
    + simpl. by rewrite Hcq.
    + simpl. by rewrite Hcs.
    + done.
    + split; [|done]. rewrite H1. simpl. rewrite Hcc. simpl.
      rewrite !ytdl_urls_app, ytdl_urls_cleared. simpl.
      by rewrite !app_nil_r, <- app_assoc.
Qed.

(** X17. Links are streamed in the order in which they were queued: for
    a plugin that is playing, after further accepted links have been
    queued and as many streams have ended as there are links waiting, the
    links handed to [ytdl] are the ones that were waiting followed by the
    new ones, in that order, and the queue is empty. *)
Theorem streams_in_order (validateURL : jsstring -> bool) (message : Message)
    (channel : VoiceChannel) (qs : list jsstring) (p : Player) :
  state p = isPlaying -> joinable channel = true ->
  Forall (fun q => validateURL q = true) (play_queue p ++ qs) ->
  let queued := queue_all validateURL message channel qs p in
  let p' := end_all validateURL message channel (List.length (play_queue p ++ qs)) queued in
  play_queue queued = play_queue p ++ qs /\
  ytdl_urls (calls queued) = ytdl_urls (calls p) /\
  ytdl_urls (calls p') = ytdl_urls (calls p) ++ play_queue p ++ qs /\
  play_queue p' = [] /\ state p' = isPlaying.
Proof.
  intros Hs Hj Hv queued p'.
  destruct (queue_all_playing validateURL message channel qs p Hs Hj) as (H1 & H2 & H3 & _).
  fold queued in H1, H2, H3.
  destruct (end_all_valid validateURL message channel (play_queue p ++ qs) queued H2 H1 Hv)
    as (H4 & H5 & H6).
  fold p' in H4, H5, H6. rewrite H3 in H4. rewrite H3. done.
Qed.

Lemma execute_queue_idle validateURL message channel q p :
  state p = idle -> joinable channel = true ->
  execute_queue validateURL message (Some channel) (Some q) p =
  stream_audio validateURL message channel
    (set_state isPlaying
       (in_world (reply message (js "Added: " ++ q))
          (set_play_queue (play_queue p ++ [q]) p))).
Proof. intros Hs Hj. unfold execute_queue. rewrite Hj. simpl. by rewrite Hs. Qed.

(** X18. When a stream ends and nothing is queued, the plugin prints
    that there are no more videos, asks for one timer of 15000 ms to
    leave the channel, keeps its handle and becomes [idle].  The next
    accepted link then cancels exactly that timer before [ytdl] and
    [join] are called; the handle is kept in [connection_timer]. *)
Theorem idle_timer_cancelled (validateURL : jsstring -> bool) (message : Message)
    (channel : VoiceChannel) (p : Player) :
  state p = isPlaying -> play_queue p = [] ->
  let r := stream_audio validateURL message channel p in
  r.1 = Finished /\ state r.2 = idle /\ play_queue r.2 = [] /\
  connection_timer r.2 = Some (timers p) /\
  calls r.2 = calls p ++ [SetTimeout (timers p) 15000 channel] /\
  console (world r.2) = console (world p) ++
    [(LLog, LogText (js "[YOUTUBE] Exiting Loop. Reason: { No more videos }"))] /\
  forall message' channel' q,
    joinable channel' = true -> validateURL q = true ->
    let r' := execute_queue validateURL message' (Some channel') (Some q) r.2 in
    r'.1 = AwaitJoin q message' channel' /\
    calls r'.2 = calls r.2 ++ [ClearTimeout (timers p); Ytdl q; Join channel'] /\
    state r'.2 = isPlaying /\ play_queue r'.2 = [] /\
    connection_timer r'.2 = Some (timers p).
Proof.
  intros Hs Hq r.
  pose proof (stream_audio_empty validateURL message channel p Hq) as Hr. fold r in Hr.
  rewrite Hr. cbn [fst snd].
  do 6 (split; [reflexivity|]).
  intros message' channel' q Hj Hv.
  rewrite execute_queue_idle by done.
  rewrite (stream_audio_valid _ _ _ _ q []); [|reflexivity|discriminate|done].
  cbn [fst snd]. split; [reflexivity|]. split.
  - cbn. by rewrite <- !app_assoc.
  - split; [reflexivity|]. split; reflexivity.
Qed.

(** X19. A [play] command that is refused is answered by exactly one
    reply and changes nothing else.  The tests come in this order: a
    message outside a server, a missing link, a member in no voice
    channel, a channel that cannot be joined. *)
Theorem play_rejected (validateURL : jsstring -> bool) (message : Message)
    (member : option (option VoiceChannel)) (query_or_url : option jsstring)
    (p : Player) :
  member = None \/ query_or_url = None \/ member = Some None \/
  (exists channel, member = Some (Some channel) /\ joinable channel = false) ->
  exists text,
    play_action validateURL message member query_or_url p
      = (Finished, in_world (reply message text) p) /\
    text = match member, query_or_url with
           | None, _ => js "Cannot stream in DMs."
           | Some _, None => js "Usage: play <url>"
           | Some None, Some _ => js "Please join a Voice channel on this Server."
           | Some (Some channel), Some _ => js "Cannot join channel: " ++ channel_name channel
           end.
Proof.
  intros Hcase. eexists. split; [|reflexivity].
  unfold play_action, execute_queue.
  destruct member as [[channel|]|]; [|by destruct query_or_url|done].
  destruct query_or_url as [q|]; [|done].
  destruct Hcase as [?|[?|[?|(channel' & [= <-] & Hj)]]]; try done.
  by rewrite Hj.
Qed.

Lemma play_rejected_witness :
  outbox (world (play_action Studio.is_link Studio.request (Some (Some Studio.locked))
                   (Some (js "https://a")) Studio.playing).2)
    = outbox (world Studio.playing) ++ [(Studio.request, js "Cannot join channel: Staff")] /\
  play_queue (play_action Studio.is_link Studio.request (Some (Some Studio.locked))
                (Some (js "https://a")) Studio.playing).2
    = play_queue Studio.playing.
Proof.
  destruct (play_rejected Studio.is_link Studio.request (Some (Some Studio.locked))
              (Some (js "https://a")) Studio.playing) as (text & -> & ->).
  - right. right. right. exists Studio.locked. split; reflexivity.
  - split; reflexivity.
Defined.

Lemma youtube_consistent_witness :
  rtc (step Studio.is_link) (initial Demo.empty) Studio.playing /\
  consistent Studio.playing.
Proof.
  assert (rtc (step Studio.is_link) (initial Demo.empty) Studio.playing) as Hr.
  { eapply rtc_l; [apply (step_play Studio.is_link Studio.request (Some (Some Studio.lobby))
                            (Some (js "https://a")))|].
    apply rtc_once. apply step_joined. }
  split; [exact Hr|]. exact (youtube_consistent Studio.is_link Demo.empty _ Hr).
Defined.

Lemma playing_only_queues_witness :
  let cmds : list PlayCommand :=
    [(Studio.request, Some (Some Studio.lobby), Some (js "https://b"));
     (Studio.request, None, Some (js "https://c"));
     (Studio.request, Some (Some Studio.lobby), Some (js "d"))] in
  state Studio.playing = isPlaying /\
  calls (play_all Studio.is_link cmds Studio.playing) = calls Studio.playing /\
  play_queue (play_all Studio.is_link cmds Studio.playing) = [js "https://b"; js "d"].
Proof.
  intros cmds.
  destruct (playing_only_queues Studio.is_link cmds Studio.playing eq_refl)
    as (_ & Hc & _ & _).
  split; [reflexivity|]. split; [exact Hc|by_evaluation].
Defined.

Lemma invalid_link_blocks_witness :
  let p := initial Demo.empty in
  let r := execute_queue Studio.is_link Studio.request (Some Studio.lobby)
             (Some (js "despacito")) p in
  state p = idle /\ play_queue p = [] /\
  Studio.is_link (js "despacito") = false /\
  state r.2 = isPlaying /\ calls r.2 = [] /\
  calls (play_all Studio.is_link
           [(Studio.request, Some (Some Studio.lobby), Some (js "https://a"))] r.2) = [].
Proof.
  intros p r.
  destruct (invalid_link_blocks Studio.is_link Studio.request Studio.lobby (js "despacito")
              p eq_refl eq_refl eq_refl eq_refl) as (_ & Hs & _ & Hc & _ & Hafter).
  fold r in Hs, Hc, Hafter.
  split; [reflexivity|]. split; [reflexivity|]. split; [reflexivity|].
  split; [exact Hs|]. split; [rewrite Hc; reflexivity|].
  destruct (Hafter [(Studio.request, Some (Some Studio.lobby), Some (js "https://a"))])
    as [_ ->].
  rewrite Hc. reflexivity.
Defined.

Lemma streams_in_order_witness :
  let qs := [js "https://b"; js "https://c"] in
  let queued := queue_all Studio.is_link Studio.request Studio.lobby qs Studio.playing in
  let p' := end_all Studio.is_link Studio.request Studio.lobby 2 queued in
  Forall (fun q => Studio.is_link q = true) (play_queue Studio.playing ++ qs) /\
  ytdl_urls (calls p') = [js "https://a"; js "https://b"; js "https://c"] /\
  play_queue p' = [].
Proof.
  intros qs queued p'.
  assert (Forall (fun q => Studio.is_link q = true) (play_queue Studio.playing ++ qs))
    as Hv by (repeat constructor).
  destruct (streams_in_order Studio.is_link Studio.request Studio.lobby qs Studio.playing
              eq_refl eq_refl Hv) as (_ & _ & Hu & Hq & _).
  split; [exact Hv|]. split; [|exact Hq].
  etrans; [exact Hu|]. by_evaluation.
Defined.

Lemma idle_timer_cancelled_witness :
  let r := stream_audio Studio.is_link Studio.request Studio.lobby Studio.playing in
  state Studio.playing = isPlaying /\ play_queue Studio.playing = [] /\
  state r.2 = idle /\ connection_timer r.2 = Some 0 /\
  (execute_queue Studio.is_link Studio.request (Some Studio.lobby)
     (Some (js "https://b")) r.2).1
    = AwaitJoin (js "https://b") Studio.request Studio.lobby.
Proof.
  intros r.
  destruct (idle_timer_cancelled Studio.is_link Studio.request Studio.lobby Studio.playing
              eq_refl eq_refl) as (_ & Hs & _ & Ht & _ & _ & Hnext).
  fold r in Hs, Ht, Hnext.
  destruct (Hnext Studio.request Studio.lobby (js "https://b") eq_refl eq_refl) as (Hp & _).
  split; [reflexivity|]. split; [reflexivity|]. split; [exact Hs|]. split; [exact Ht|].
  exact Hp.
Defined.
